(** * okta-auth-js: token lifecycle manager and IDX orchestrator

    A shallow embedding of
      - the TokenManager module ([hasExpired], [validateToken], [add],
        [setTokens], [renew], [shouldThrottleRenew], the expired-token
        handler and the cross-tab storage listener),
      - [lib/idx/run.ts] (the [run] orchestrator), and
      - the [VerifyAuthenticator] remediator,
    followed by the properties established about them.

    Conventions.
      - JavaScript objects used as maps are association lists in insertion
        order ([JsObj]); keys are ordinary property names.
      - Times are integers: seconds for the SDK clock and [expiresAt],
        milliseconds for [Date.now()] and timer delays.
      - Mutation is explicit state passing; [throw] is the [Thrown]
        completion of the monad [M].
      - The storage adapter is a reliable store: [getStorage] hands out a
        copy of what [setStorage] wrote last. *)

From Stdlib Require Import ZArith List String Bool Lia.
Import ListNotations.

Local Open Scope string_scope.
Local Open Scope list_scope.
Local Open Scope Z_scope.

(** ** JavaScript truthiness of the optional values the code tests *)

Module Js.

(** [!!v] for [v : string | undefined]: the empty string is falsy. *)
Definition truthy_string (v : option string) : bool :=
  match v with
  | Some s => negb (String.eqb s "")
  | None => false
  end.

(** [!!v] for [v : number | undefined]. *)
Definition truthy_number (v : option Z) : bool :=
  match v with
  | Some z => negb (z =? 0)
  | None => false
  end.

(** [v === 0]. *)
Definition is_zero (v : option Z) : bool :=
  match v with
  | Some z => z =? 0
  | None => false
  end.

(** [!!v] for an object reference or [undefined]. *)
Definition truthy_object {A : Type} (v : option A) : bool :=
  match v with
  | Some _ => true
  | None => false
  end.

(** [a || b] on optional strings. *)
Definition or_string (a b : option string) : option string :=
  if truthy_string a then a else b.

(** [a !== b] on optional strings. *)
Definition strict_neq (a b : option string) : bool :=
  match a, b with
  | Some x, Some y => negb (String.eqb x y)
  | None, None => false
  | _, _ => true
  end.

End Js.

(** ** JavaScript objects used as maps *)

Module JsObj.

Section Obj.

Context {V : Type}.

Definition t := list (string * V).

(** [o[k]], by the own properties of [o]: for a key that names no member
    of [Object.prototype]. *)
Fixpoint get (o : t) (k : string) : option V :=
  match o with
  | [] => None
  | (k', v) :: rest => if String.eqb k' k then Some v else get rest k
  end.

(** [o[k] = v]: an existing property keeps its place, a new one goes last. *)
Fixpoint set (o : t) (k : string) (v : V) : t :=
  match o with
  | [] => [(k, v)]
  | (k', v') :: rest =>
      if String.eqb k' k then (k', v) :: rest else (k', v') :: set rest k v
  end.

(** [delete o[k]] *)
Fixpoint delete (o : t) (k : string) : t :=
  match o with
  | [] => []
  | (k', v') :: rest =>
      if String.eqb k' k then delete rest k else (k', v') :: delete rest k
  end.

(** [Object.keys(o)] *)
Definition keys (o : t) : list string := map fst o.

End Obj.

Arguments t : clear implicits.

End JsObj.

(** ** Keys of plain objects *)

Module JsKey.

(** The names every plain object inherits from [Object.prototype].  For
    such a key [o[k]] finds the inherited member when [o] has no own
    property [k], and [delete o[k]] leaves it there. *)
Definition inherited : list string :=
  ["constructor"; "hasOwnProperty"; "isPrototypeOf"; "propertyIsEnumerable";
   "toLocaleString"; "toString"; "valueOf"; "__proto__";
   "__defineGetter__"; "__defineSetter__"; "__lookupGetter__"; "__lookupSetter__"].

(** A key for which [o[k]] reads the own properties of [o] only, as
    [JsObj.get] does. *)
Definition ordinary (k : string) : bool :=
  negb (existsb (String.eqb k) inherited).

End JsKey.

(** ** Errors *)

(** An [Error] object: its [name], its [message], and the [tokenKey]
    property that [renew] attaches. *)
Record Error := mkError {
  err_name : string;
  err_message : string;
  err_tokenKey : option string
}.

Definition set_tokenKey (e : Error) (key : string) : Error :=
  {| err_name := err_name e; err_message := err_message e; err_tokenKey := Some key |}.

(** ** Statements that mutate a state and may throw *)

Module Eff.

Inductive Completion (A : Type) :=
| Normal (a : A)
| Thrown (e : Error).
Arguments Normal {A} a.
Arguments Thrown {A} e.

Section Monad.

Context {S : Type}.

Definition M (A : Type) : Type := S -> Completion A * S.

Definition ret {A} (a : A) : M A := fun s => (Normal a, s).

Definition throw {A} (e : Error) : M A := fun s => (Thrown e, s).

Definition bind {A B} (m : M A) (k : A -> M B) : M B :=
  fun s =>
    match m s with
    | (Normal a, s') => k a s'
    | (Thrown e, s') => (Thrown e, s')
    end.

Definition gets {A} (f : S -> A) : M A := fun s => (Normal (f s), s).

Definition modify (f : S -> S) : M unit := fun s => (Normal tt, f s).

(** [xs.forEach(body)] and [for (x in ...) body]. *)
Fixpoint forEach {A} (xs : list A) (body : A -> M unit) : M unit :=
  match xs with
  | [] => ret tt
  | x :: rest => bind (body x) (fun _ => forEach rest body)
  end.

(** [if (c) stmt] *)
Definition when (c : bool) (stmt : M unit) : M unit :=
  if c then stmt else ret tt.

(** [try { body } catch (e) { handler }] *)
Definition try_catch {A} (body : M A) (handler : Error -> M A) : M A :=
  fun s =>
    match body s with
    | (Normal a, s') => (Normal a, s')
    | (Thrown e, s') => handler e s'
    end.

(** [promise.finally(fin)]: the settlement of [body] goes through unless
    [fin] throws. *)
Definition finally {A} (body : M A) (fin : M unit) : M A :=
  fun s =>
    let (r, s') := body s in
    match fin s' with
    | (Normal _, s'') => (r, s'')
    | (Thrown e, s'') => (Thrown e, s'')
    end.

End Monad.

Arguments M : clear implicits.

Notation "x <- m ;; k" := (bind m (fun x => k))
  (at level 61, m at next level, right associativity).
Notation "m ;; k" := (bind m (fun _ => k))
  (at level 61, right associativity).

End Eff.

Import Eff.

(** ** The token manager *)

Module TokenManager.

(** *** Data *)

(** A token object, by the properties the manager reads: [scopes] and
    [expiresAt] (either may be missing on a malformed object) and the
    payload properties that tell the three kinds apart. *)
Record Token := mkToken {
  scopes : option (list string);
  expiresAt : option Z;
  idToken : option string;
  accessToken : option string;
  refreshToken : option string
}.

(** The [Tokens] bag: every kind is optional. *)
Record Tokens := mkTokens {
  tokens_accessToken : option Token;
  tokens_idToken : option Token;
  tokens_refreshToken : option Token
}.

Inductive TokenType := idTokenType | accessTokenType | refreshTokenType.

Record Options := mkOptions {
  autoRenew : bool;
  autoRemove : bool;
  expireEarlySeconds : Z;
  storageKey : string;
  _storageEventDelay : Z
}.

(** What the emitter has been asked to emit. *)
Inductive Event :=
| EVENT_EXPIRED (key : string) (token : Token)
| EVENT_RENEWED (key : string) (freshToken : option Token) (oldToken : option Token)
| EVENT_ADDED (key : string) (token : Token)
| EVENT_REMOVED (key : string) (token : option Token)
| EVENT_ERROR (error : Error).

(** The two kinds of callback the module hands to [setTimeout]. *)
Inductive Task :=
| EmitExpired (key : string) (token : Token)
| HandleCrossTabsStorageChange (newValue oldValue : option string).

Record Timer := mkTimer {
  timer_id : nat;
  timer_wait : Z;
  timer_task : Task
}.

(** The transport calls of [_renewToken]. *)
Inductive Request :=
| RenewTokensWithRefresh (scopes : option (list string)) (refreshTokenObject : Token)
| Renew (token : Token).

(** A per-kind callback invocation of [setTokens]. *)
Record CallbackCall := mkCallbackCall {
  cb_type : TokenType;
  cb_key : string;
  cb_token : Token
}.

(** Result of [JSON.parse] on a stored value. *)
Inductive Parsed :=
| ParseThrows
| ParsedFalsy
| ParsedObject (tokens : JsObj.t Token).

(** What the module takes from elsewhere, as parameters: the kind
    predicates of [./types], the storage-key constants of [./constants],
    the [AuthSdkError] constructor, and the JSON built-ins. *)
Record Imports := mkImports {
  isIDToken : Token -> bool;
  isAccessToken : Token -> bool;
  isRefreshToken : Token -> bool;
  ID_TOKEN_STORAGE_KEY : string;
  ACCESS_TOKEN_STORAGE_KEY : string;
  REFRESH_TOKEN_STORAGE_KEY : string;
  AuthSdkError : string -> Error;
  JSON_parse : option string -> Parsed;
  JSON_stringify : Token -> string
}.

(** The manager's runtime state ([tokenMgmtRef]), the storage adapter's
    content, and the parts of the host it drives: pending timers, transport
    calls issued, renewal chains not yet settled, the throttle queue of the
    expired-token handler, callback invocations and the console. *)
Record State := mkState {
  clock_now : Z;
  options : Options;
  emitter : list Event;
  expireTimeouts : JsObj.t nat;
  renewPromise : JsObj.t nat;
  tokenStorage : JsObj.t Token;
  timers : list Timer;
  nextTimer : nat;
  requests : list Request;
  inflight : list (nat * string);
  nextPromise : nat;
  renewTimeQueue : list Z;
  callbackLog : list CallbackCall;
  console : list string;
  isLocalhost : bool
}.

(** The state a new manager starts from, before the constructor schedules
    the timers of the tokens found in storage. *)
Definition fresh (clock : Z) (opts : Options) (storage : JsObj.t Token) (localhost : bool)
  : State :=
  mkState clock opts [] [] [] storage [] 0 [] [] 0 [] [] [] localhost.

Definition with_emitter (f : list Event -> list Event) (s : State) : State :=
  let 'mkState a b c d e g h i j k l m n o p := s in
  mkState a b (f c) d e g h i j k l m n o p.

Definition with_expireTimeouts (f : JsObj.t nat -> JsObj.t nat) (s : State) : State :=
  let 'mkState a b c d e g h i j k l m n o p := s in
  mkState a b c (f d) e g h i j k l m n o p.

Definition with_renewPromise (f : JsObj.t nat -> JsObj.t nat) (s : State) : State :=
  let 'mkState a b c d e g h i j k l m n o p := s in
  mkState a b c d (f e) g h i j k l m n o p.

Definition with_tokenStorage (f : JsObj.t Token -> JsObj.t Token) (s : State) : State :=
  let 'mkState a b c d e g h i j k l m n o p := s in
  mkState a b c d e (f g) h i j k l m n o p.

Definition with_timers (f : list Timer -> list Timer) (s : State) : State :=
  let 'mkState a b c d e g h i j k l m n o p := s in
  mkState a b c d e g (f h) i j k l m n o p.

Definition with_nextTimer (f : nat -> nat) (s : State) : State :=
  let 'mkState a b c d e g h i j k l m n o p := s in
  mkState a b c d e g h (f i) j k l m n o p.

Definition with_requests (f : list Request -> list Request) (s : State) : State :=
  let 'mkState a b c d e g h i j k l m n o p := s in
  mkState a b c d e g h i (f j) k l m n o p.

Definition with_inflight (f : list (nat * string) -> list (nat * string)) (s : State) : State :=
  let 'mkState a b c d e g h i j k l m n o p := s in
  mkState a b c d e g h i j (f k) l m n o p.

Definition with_nextPromise (f : nat -> nat) (s : State) : State :=
  let 'mkState a b c d e g h i j k l m n o p := s in
  mkState a b c d e g h i j k (f l) m n o p.

Definition with_renewTimeQueue (f : list Z -> list Z) (s : State) : State :=
  let 'mkState a b c d e g h i j k l m n o p := s in
  mkState a b c d e g h i j k l (f m) n o p.

Definition with_callbackLog (f : list CallbackCall -> list CallbackCall) (s : State) : State :=
  let 'mkState a b c d e g h i j k l m n o p := s in
  mkState a b c d e g h i j k l m (f n) o p.

Definition with_console (f : list string -> list string) (s : State) : State :=
  let 'mkState a b c d e g h i j k l m n o p := s in
  mkState a b c d e g h i j k l m n (f o) p.

(** *** Host and storage primitives *)

Definition M := Eff.M State.

Definition getStorage : M (JsObj.t Token) := gets tokenStorage.

Definition setStorage (obj : JsObj.t Token) : M unit :=
  modify (with_tokenStorage (fun _ => obj)).

Definition clearStorage : M unit :=
  modify (with_tokenStorage (fun _ => [])).

(** The delay the host uses for [wait]; [None] is [NaN] and counts as [0]. *)
Definition delay (wait : option Z) : Z :=
  match wait with
  | Some w => w
  | None => 0
  end.

(** [setTimeout(task, wait)] *)
Definition setTimeout (task : Task) (wait : option Z) : M nat :=
  fun s =>
    let id := nextTimer s in
    (Normal id,
     with_nextTimer S (with_timers (fun l => l ++ [mkTimer id (delay wait) task]) s)).

(** The pending timers once [id] has been cancelled. *)
Definition cancel (id : nat) (pending : list Timer) : list Timer :=
  filter (fun t => negb (Nat.eqb (timer_id t) id)) pending.

(** [clearTimeout(id)]; [undefined] is ignored. *)
Definition clearTimeout (id : option nat) : M unit :=
  match id with
  | Some i => modify (with_timers (cancel i))
  | None => ret tt
  end.

Definition warn (text : string) : M unit :=
  modify (with_console (fun l => l ++ [text])).

Section Code.

Variable imp : Imports.

(** *** Translation of the module's functions *)

(** [token.expiresAt - expireEarlySeconds]; [None] is [NaN]. *)
Definition getExpireTime (tokenMgmtRef : State) (token : Token) : option Z :=
  match expiresAt token with
  | Some e => Some (e - expireEarlySeconds (options tokenMgmtRef))
  | None => None
  end.

Definition hasExpired (tokenMgmtRef : State) (token : Token) : bool :=
  match getExpireTime tokenMgmtRef token with
  | Some expireTime => expireTime <=? clock_now tokenMgmtRef
  | None => false
  end.

Definition emit (ev : Event) : M unit :=
  modify (with_emitter (fun l => l ++ [ev])).

Definition emitExpired (key : string) (token : Token) : M unit :=
  emit (EVENT_EXPIRED key token).

Definition emitRenewed (key : string) (freshToken oldToken : option Token) : M unit :=
  emit (EVENT_RENEWED key freshToken oldToken).

Definition emitAdded (key : string) (token : Token) : M unit :=
  emit (EVENT_ADDED key token).

Definition emitRemoved (key : string) (token : option Token) : M unit :=
  emit (EVENT_REMOVED key token).

Definition emitError (error : Error) : M unit :=
  emit (EVENT_ERROR error).

Definition getTokensFromStorageValue (value : option string) : JsObj.t Token :=
  match JSON_parse imp value with
  | ParsedObject tokens => tokens
  | ParsedFalsy => []
  | ParseThrows => []
  end.

Definition emitEventsForCrossTabsStorageUpdate (newValue oldValue : option string) : M unit :=
  let oldTokens := getTokensFromStorageValue oldValue in
  let newTokens := getTokensFromStorageValue newValue in
  forEach (JsObj.keys newTokens) (fun key =>
    let oldToken := JsObj.get oldTokens key in
    let newToken := JsObj.get newTokens key in
    match newToken with
    | Some t =>
        when (Js.strict_neq (option_map (JSON_stringify imp) oldToken)
                            (option_map (JSON_stringify imp) newToken))
             (emitAdded key t)
    | None => ret tt
    end) ;;
  forEach (JsObj.keys oldTokens) (fun key =>
    let oldToken := JsObj.get oldTokens key in
    let newToken := JsObj.get newTokens key in
    when (negb (Js.truthy_object newToken)) (emitRemoved key oldToken)).

Definition clearExpireEventTimeout (key : string) : M unit :=
  id <- gets (fun s => JsObj.get (expireTimeouts s) key) ;;
  clearTimeout id ;;
  modify (with_expireTimeouts (fun o => JsObj.delete o key)) ;;
  (* Remove the renew promise (if it exists) *)
  modify (with_renewPromise (fun o => JsObj.delete o key)).

Definition clearExpireEventTimeoutAll : M unit :=
  expireTimeouts <- gets expireTimeouts ;;
  forEach (JsObj.keys expireTimeouts) clearExpireEventTimeout.

(** [Math.max(expireTime - tokenMgmtRef.clock.now(), 0) * 1000] *)
Definition expireEventWait (tokenMgmtRef : State) (token : Token) : option Z :=
  match getExpireTime tokenMgmtRef token with
  | Some expireTime => Some (Z.max (expireTime - clock_now tokenMgmtRef) 0 * 1000)
  | None => None
  end.

Definition setExpireEventTimeout (key : string) (token : Token) : M unit :=
  tokenMgmtRef <- gets (fun s => s) ;;
  let expireEventWait := expireEventWait tokenMgmtRef token in
  (* Clear any existing timeout *)
  clearExpireEventTimeout key ;;
  expireEventTimeout <- setTimeout (EmitExpired key token) expireEventWait ;;
  (* Add a new timeout *)
  modify (with_expireTimeouts (fun o => JsObj.set o key expireEventTimeout)).

Definition setExpireEventTimeoutAll : M unit :=
  r <- try_catch (tokenStorage <- getStorage ;; ret (Some tokenStorage))
                 (fun e => emitError e ;; ret None) ;;
  match r with
  | None => ret tt
  | Some tokenStorage =>
      forEach (JsObj.keys tokenStorage) (fun key =>
        match JsObj.get tokenStorage key with
        | Some token => setExpireEventTimeout key token
        | None => ret tt
        end)
  end.

(** reset timeouts to setup autoRenew for tokens from other document context (tabs) *)
Definition resetExpireEventTimeoutAll : M unit :=
  clearExpireEventTimeoutAll ;;
  setExpireEventTimeoutAll.

(** The condition under which [validateToken] throws.  [None] is a value
    that is not an object. *)
Definition invalidToken (token : option Token) : bool :=
  match token with
  | None => true
  | Some t =>
      negb (Js.truthy_object (scopes t))
      || (negb (Js.truthy_number (expiresAt t)) && negb (Js.is_zero (expiresAt t)))
      || (negb (isIDToken imp t) && negb (isAccessToken imp t) && negb (isRefreshToken imp t))
  end.

Definition validateToken_message : string :=
  "Token must be an Object with scopes, expiresAt, and one of: an idToken, accessToken, or refreshToken property".

Definition validateToken (token : option Token) : M unit :=
  if invalidToken token
  then throw (AuthSdkError imp validateToken_message)
  else ret tt.

Definition _add (key : string) (token : option Token) : M unit :=
  tokenStorage <- getStorage ;;
  validateToken token ;;
  match token with
  | Some t =>
      setStorage (JsObj.set tokenStorage key t) ;;
      emitAdded key t ;;
      setExpireEventTimeout key t
  | None => ret tt (* a non-object does not get past validateToken *)
  end.

Definition add_warning : string :=
  "Use setTokens() instead if you want to add a set of tokens at same time.
It prevents current tab from emitting unnecessary StorageEvent,
which may cause false-positive authState change cross tabs.".

Definition add (key : string) (token : option Token) : M unit :=
  localhost <- gets isLocalhost ;;
  when localhost (warn add_warning) ;;
  _add key token.

Definition get (key : string) : M (option Token) :=
  tokenStorage <- getStorage ;;
  ret (JsObj.get tokenStorage key).

Definition ofType (type : TokenType) (token : Token) : bool :=
  (isAccessToken imp token && match type with accessTokenType => true | _ => false end)
  || (isIDToken imp token && match type with idTokenType => true | _ => false end)
  || (isRefreshToken imp token && match type with refreshTokenType => true | _ => false end).

Definition getKeyByType (type : TokenType) : M (option string) :=
  tokenStorage <- getStorage ;;
  ret (hd_error (filter (fun key =>
         match JsObj.get tokenStorage key with
         | Some token => ofType type token
         | None => false
         end) (JsObj.keys tokenStorage))).

(** The body of the [forEach] of [getTokens], for one key. *)
Definition classify (tokenStorage : JsObj.t Token) (tokens : Tokens) (key : string) : Tokens :=
  match JsObj.get tokenStorage key with
  | Some token =>
      if isAccessToken imp token then
        mkTokens (Some token) (tokens_idToken tokens) (tokens_refreshToken tokens)
      else if isIDToken imp token then
        mkTokens (tokens_accessToken tokens) (Some token) (tokens_refreshToken tokens)
      else if isRefreshToken imp token then
        mkTokens (tokens_accessToken tokens) (tokens_idToken tokens) (Some token)
      else tokens
  | None => tokens
  end.

Definition getTokens : M Tokens :=
  tokenStorage <- getStorage ;;
  ret (fold_left (classify tokenStorage) (JsObj.keys tokenStorage) (mkTokens None None None)).

(** [k || DEFAULT] for a key that may be [undefined] or empty. *)
Definition key_or (k : option string) (default : string) : string :=
  match Js.or_string k (Some default) with
  | Some key => key
  | None => default
  end.

Definition callback (type : TokenType) (key : string) (token : Token) : M unit :=
  modify (with_callbackLog (fun l => l ++ [mkCallbackCall type key token])).

Definition handleAdded (type : TokenType) (key : string) (token : Token) (tokenCb : bool) : M unit :=
  emitAdded key token ;;
  setExpireEventTimeout key token ;;
  when tokenCb (callback type key token).

Definition handleRemoved (type : TokenType) (key : string) (token : Token) (tokenCb : bool) : M unit :=
  clearExpireEventTimeout key ;;
  emitRemoved key (Some token) ;;
  when tokenCb (callback type key token).

(** [...(token && { [key]: token })] spread into [obj]. *)
Definition spread (obj : JsObj.t Token) (key : string) (token : option Token) : JsObj.t Token :=
  match token with
  | Some t => JsObj.set obj key t
  | None => obj
  end.

(** The [if (token) handleAdded(...) else if (existing) handleRemoved(...)]
    statement of [setTokens], for one kind. *)
Definition notify (type : TokenType) (key : string) (token existing : option Token)
  (tokenCb : bool) : M unit :=
  match token with
  | Some t => handleAdded type key t tokenCb
  | None =>
      match existing with
      | Some t => handleRemoved type key t tokenCb
      | None => ret tt
      end
  end.

(** The optional callbacks are given by their presence; an invocation is
    recorded in [callbackLog]. *)
Definition setTokens (tokens : Tokens) (accessTokenCb idTokenCb refreshTokenCb : bool) : M unit :=
  let accessToken := tokens_accessToken tokens in
  let idToken := tokens_idToken tokens in
  let refreshToken := tokens_refreshToken tokens in
  when (Js.truthy_object idToken) (validateToken idToken) ;;
  when (Js.truthy_object accessToken) (validateToken accessToken) ;;
  k1 <- getKeyByType idTokenType ;;
  let idTokenKey := key_or k1 (ID_TOKEN_STORAGE_KEY imp) in
  k2 <- getKeyByType accessTokenType ;;
  let accessTokenKey := key_or k2 (ACCESS_TOKEN_STORAGE_KEY imp) in
  k3 <- getKeyByType refreshTokenType ;;
  let refreshTokenKey := key_or k3 (REFRESH_TOKEN_STORAGE_KEY imp) in
  (* add token to storage *)
  let tokenStorage :=
    spread (spread (spread [] idTokenKey idToken) accessTokenKey accessToken)
           refreshTokenKey refreshToken in
  setStorage tokenStorage ;;
  (* emit event and start expiration timer *)
  existingTokens <- getTokens ;;
  notify idTokenType idTokenKey idToken (tokens_idToken existingTokens) idTokenCb ;;
  notify accessTokenType accessTokenKey accessToken (tokens_accessToken existingTokens) accessTokenCb ;;
  notify refreshTokenType refreshTokenKey refreshToken (tokens_refreshToken existingTokens) refreshTokenCb.

Definition remove (key : string) : M unit :=
  (* Clear any listener for this token *)
  clearExpireEventTimeout key ;;
  tokenStorage <- getStorage ;;
  let removedToken := JsObj.get tokenStorage key in
  setStorage (JsObj.delete tokenStorage key) ;;
  emitRemoved key removedToken.

(** A promise as [renew] returns it: a fresh [Promise.reject(e)], or the
    chain with the given identity that is kept in [renewPromise]. *)
Inductive Promise :=
| PromiseReject (e : Error)
| PromiseChain (id : nat).

(** The transport call [_renewToken] makes (it goes out once the
    synchronously read token bag has been delivered). *)
Definition _renewToken (token : Token) : M Request :=
  tokens <- getTokens ;;
  match tokens_refreshToken tokens with
  | Some refreshTokenObject =>
      ret (RenewTokensWithRefresh (scopes token) refreshTokenObject)
  | None => ret (Renew token)
  end.

(** The token [_renewToken] resolves with when the refresh grant answers
    with [freshTokens]: only the one that was requested. *)
Definition _renewToken_pick (token : Token) (freshTokens : Tokens) : option Token :=
  if isIDToken imp token then tokens_idToken freshTokens else tokens_accessToken freshTokens.

Definition renew_missing (key : string) : string :=
  ("The tokenManager has no token for the key: " ++ key)%string.

Definition renew (key : string) : M Promise :=
  (* Multiple callers may receive the same promise. *)
  existingPromise <- gets (fun s => JsObj.get (renewPromise s) key) ;;
  match existingPromise with
  | Some p => ret (PromiseChain p)
  | None =>
      r <- try_catch
             (token <- get key ;;
              match token with
              | Some t => ret (inr t)
              | None => throw (AuthSdkError imp (renew_missing key))
              end)
             (fun e => ret (inl e)) ;;
      match r with
      | inl e => ret (PromiseReject e)
      | inr token =>
          (* Remove existing autoRenew timeout *)
          clearExpireEventTimeout key ;;
          (* Store the renew promise state, to avoid renewing again *)
          request <- _renewToken token ;;
          p <- gets nextPromise ;;
          modify (with_nextPromise S) ;;
          modify (with_requests (fun l => l ++ [request])) ;;
          modify (with_inflight (fun l => l ++ [(p, key)])) ;;
          modify (with_renewPromise (fun o => JsObj.set o key p)) ;;
          ret (PromiseChain p)
      end
  end.

(** The [.then] handler of the chain. *)
Definition renew_then (key : string) (freshToken : option Token) : M (option Token) :=
  (* store and emit events for freshToken *)
  oldTokenStorage <- getStorage ;;
  remove key ;;
  _add key freshToken ;;
  emitRenewed key freshToken (JsObj.get oldTokenStorage key) ;;
  ret freshToken.

Definition isAuthorizationError (err : Error) : bool :=
  String.eqb (err_name err) "OAuthError" || String.eqb (err_name err) "AuthSdkError".

(** The [.catch] handler of the chain; it always rethrows. *)
Definition renew_catch (key : string) (err : Error) : M (option Token) :=
  if isAuthorizationError err then
    (* remove expired token in storage *)
    tokenStorage <- getStorage ;;
    let currentToken := JsObj.get tokenStorage key in
    tokenMgmtRef <- gets (fun s => s) ;;
    match currentToken with
    | Some t =>
        if hasExpired tokenMgmtRef t then
          clearExpireEventTimeout key ;;
          setStorage (JsObj.delete tokenStorage key) ;;
          emitRemoved key currentToken
        else
          emitRemoved key None
    | None =>
        (* token have been removed from other tabs *)
        emitRemoved key None
    end ;;
    let err' := set_tokenKey err key in
    emitError err' ;;
    throw err'
  else throw err.

(** The [.finally] handler of the chain. *)
Definition renew_finally (key : string) : M unit :=
  (* Remove existing promise key *)
  modify (with_renewPromise (fun o => JsObj.delete o key)).

(** The chain [renew(key)] hangs on the promise of [_renewToken], run on
    that promise's settlement: [inr] is what it resolved with, [inl] what
    it was rejected with.  [Thrown] is the rejection of the chain. *)
Definition renew_chain (key : string) (outcome : Error + option Token) : M (option Token) :=
  finally
    (try_catch
       (match outcome with
        | inr freshToken => renew_then key freshToken
        | inl err => throw err
        end)
       (renew_catch key))
    (renew_finally key).

Fixpoint lookup_inflight (l : list (nat * string)) (p : nat) : option string :=
  match l with
  | [] => None
  | (q, key) :: rest => if Nat.eqb q p then Some key else lookup_inflight rest p
  end.

(** The transport settles the request behind chain [p]; [None] when [p] is
    not a chain in flight. *)
Definition settle (p : nat) (outcome : Error + option Token) (s : State)
  : option (Completion (option Token) * State) :=
  match lookup_inflight (inflight s) p with
  | None => None
  | Some key =>
      Some (renew_chain key outcome
              (with_inflight (filter (fun e => negb (Nat.eqb (fst e) p))) s))
  end.

Definition clear : M unit :=
  clearExpireEventTimeoutAll ;;
  clearStorage.

(** [shouldThrottleRenew(renewTimeQueue)] at [Date.now() = dateNow]: the
    result and the queue as the call leaves it. *)
Definition shouldThrottleRenew (renewTimeQueue : list Z) (dateNow : Z) : bool * list Z :=
  let pushed := renewTimeQueue ++ [dateNow] in
  if (10 <=? Z.of_nat (List.length pushed)) then
    (* get and remove first item from queue *)
    match pushed with
    | firstTime :: shifted =>
        match nth_error shifted (List.length shifted - 1)%nat with
        | Some lastTime => (lastTime - firstTime <? 30 * 1000, shifted)
        | None => (false, shifted)
        end
    | [] => (false, pushed)
    end
  else (false, pushed).

Definition throttle_message : string := "Too many token renew requests".

(** The listener the constructor subscribes to [EVENT_EXPIRED]. *)
Definition onTokenExpiredHandler (dateNow : Z) (key : string) : M unit :=
  opts <- gets options ;;
  if autoRenew opts then
    queue <- gets renewTimeQueue ;;
    let (res, queue') := shouldThrottleRenew queue dateNow in
    modify (with_renewTimeQueue (fun _ => queue')) ;;
    if res then
      emitError (AuthSdkError imp throttle_message)
    else
      _ <- renew key ;; ret tt (* Renew errors will emit an "error" event *)
  else if autoRemove opts then
    remove key
  else ret tt.

Record StorageEvent := mkStorageEvent {
  key : option string;
  newValue : option string;
  oldValue : option string
}.

Definition handleCrossTabsStorageChange (newValue oldValue : option string) : M unit :=
  resetExpireEventTimeoutAll ;;
  emitEventsForCrossTabsStorageUpdate newValue oldValue.

(** The condition of the early [return] in the ['storage'] listener. *)
Definition skipStorageEvent (opts : Options) (ev : StorageEvent) : bool :=
  Js.truthy_string (key ev)
  && (Js.strict_neq (key ev) (Some (storageKey opts))
      || negb (Js.strict_neq (newValue ev) (oldValue ev))).

(** The ['storage'] listener the constructor installs on [window]. *)
Definition onStorage (ev : StorageEvent) : M unit :=
  opts <- gets options ;;
  if skipStorageEvent opts ev then ret tt
  else
    _ <- setTimeout (HandleCrossTabsStorageChange (newValue ev) (oldValue ev))
                    (Some (_storageEventDelay opts)) ;;
    ret tt.

(** What a timer does when the host fires it.  The emitter delivers
    [EVENT_EXPIRED] to [onTokenExpiredHandler]. *)
Definition runTask (dateNow : Z) (task : Task) : M unit :=
  match task with
  | EmitExpired key token =>
      emitExpired key token ;;
      onTokenExpiredHandler dateNow key
  | HandleCrossTabsStorageChange newValue oldValue =>
      handleCrossTabsStorageChange newValue oldValue
  end.

(** The part of the constructor that acts on the state: the timers of
    the stored tokens are scheduled. *)
Definition constructor (clock : Z) (opts : Options) (storage : JsObj.t Token)
  (localhost : bool) : State :=
  snd (setExpireEventTimeoutAll (fresh clock opts storage localhost)).

End Code.

End TokenManager.

(** ** The IDX orchestrator ([lib/idx/run.ts]) *)

Module Idx.

Inductive IdxStatus := SUCCESS | PENDING | FAILURE | TERMINAL | CANCELED.

Inductive IdxFeature := PASSWORD_RECOVERY | REGISTRATION | SOCIAL_IDP.

Record IdxRemediation := mkIdxRemediation {
  remediation_name : string
}.

Record RawIdxState := mkRawIdxState {
  stateHandle : option string
}.

(** The response of the server, by what [run] reads of it; [actions]
    lists the names bound in the response's action map. *)
Record IdxResponse := mkIdxResponse {
  actions : list string;
  neededToProceed : list IdxRemediation;
  interactionCode : option string;
  rawIdxState : RawIdxState
}.

Record NextStep := mkNextStep {
  step_name : string
}.

Record IdxMessage := mkIdxMessage {
  message_text : string
}.

Record TransactionMeta := mkTransactionMeta {
  interactionHandle : option string;
  meta_sso : option bool;
  clientId : option string;
  codeVerifier : option string;
  ignoreSignature : option bool;
  redirectUri : option string;
  urls : option string;
  meta_scopes : option (list string)
}.

Record InteractResponse := mkInteractResponse {
  interact_interactionHandle : option string;
  interact_meta : option TransactionMeta
}.

(** What [remediate] resolves with. *)
Record RemediationResponse := mkRemediationResponse {
  idxResponseFromResp : option IdxResponse;
  nextStepFromResp : option NextStep;
  terminal : bool;
  canceled : bool;
  messagesFromResp : option (list IdxMessage)
}.

Record TokenResponse := mkTokenResponse {
  response_tokens : option TokenManager.Tokens
}.

(** [flowMonitor.isFinished()] resolves with a boolean or rejects. *)
Record FlowMonitor := mkFlowMonitor {
  isFinished : Error + bool
}.

(** [RunOptions]; [remediators] and [actions] matter to [run] by their
    presence only. *)
Record RunOptions := mkRunOptions {
  flow : option string;
  state : option string;
  scopes : option (list string);
  remediators : option (list string);
  flowMonitor : option FlowMonitor;
  options_actions : option (list string);
  sso : option bool
}.

Record ExchangeParams := mkExchangeParams {
  exchange_interactionCode : option string;
  exchange_clientId : option string;
  exchange_codeVerifier : option string;
  exchange_ignoreSignature : option bool;
  exchange_redirectUri : option string;
  exchange_scopes : option (list string)
}.

(** The calls [run] makes on its collaborators, in order, with what the
    asynchronous ones settled with. *)
Inductive Call :=
| SetFlow (flow : string)
| GetSavedTransactionMeta (state : option string)
| Clear (clearSharedStorage : option bool)
| Interact (sso : option bool) (state : option string) (scopes : option (list string))
           (result : Error + InteractResponse)
| Introspect (sso : option bool) (interactionHandle : option string)
             (result : Error + IdxResponse)
| Remediate (result : Error + RemediationResponse)
| SaveIdxResponse (raw : RawIdxState)
| IsFinished (result : Error + bool)
| ExchangeCodeForTokens (params : ExchangeParams) (urls : option string)
                        (result : Error + TokenResponse).

(** The collaborators: what each answers when called with the given
    arguments, the registry of concrete remediators behind
    [getAvailableSteps], and the error constructors. *)
Record Collaborators := mkCollaborators {
  getSavedTransactionMeta : option string -> option TransactionMeta;
  interact : option bool -> option string -> option (list string) -> Error + InteractResponse;
  introspect : option bool -> option string -> Error + IdxResponse;
  remediate : IdxResponse -> RunOptions -> option string -> Error + RemediationResponse;
  exchangeCodeForTokens : ExchangeParams -> option string -> Error + TokenResponse;
  remediatorMap : string -> option (IdxRemediation -> NextStep);
  AuthSdkError : string -> Error;
  TypeError : Error
}.

(** The [let] variables of [run] and the log of collaborator calls. *)
Record Locals := mkLocals {
  tokens : option TokenResponse;
  nextStep : option NextStep;
  messages : option (list IdxMessage);
  error : option Error;
  meta : option TransactionMeta;
  enabledFeatures : option (list IdxFeature);
  availableSteps : option (list NextStep);
  status : IdxStatus;
  shouldClearTransaction : bool;
  clearSharedStorage : bool;
  idxResponse : option IdxResponse;
  metaFromResp : option TransactionMeta;
  calls : list Call
}.

Definition set_tokens v (l : Locals) : Locals :=
  let 'mkLocals a b c d e f g h i j k m n := l in mkLocals v b c d e f g h i j k m n.

Definition set_nextStep v (l : Locals) : Locals :=
  let 'mkLocals a b c d e f g h i j k m n := l in mkLocals a v c d e f g h i j k m n.

Definition set_messages v (l : Locals) : Locals :=
  let 'mkLocals a b c d e f g h i j k m n := l in mkLocals a b v d e f g h i j k m n.

Definition set_error v (l : Locals) : Locals :=
  let 'mkLocals a b c d e f g h i j k m n := l in mkLocals a b c v e f g h i j k m n.

Definition set_meta v (l : Locals) : Locals :=
  let 'mkLocals a b c d e f g h i j k m n := l in mkLocals a b c d v f g h i j k m n.

Definition set_enabledFeatures v (l : Locals) : Locals :=
  let 'mkLocals a b c d e f g h i j k m n := l in mkLocals a b c d e v g h i j k m n.

Definition set_availableSteps v (l : Locals) : Locals :=
  let 'mkLocals a b c d e f g h i j k m n := l in mkLocals a b c d e f v h i j k m n.

Definition set_status v (l : Locals) : Locals :=
  let 'mkLocals a b c d e f g h i j k m n := l in mkLocals a b c d e f g v i j k m n.

Definition set_shouldClearTransaction v (l : Locals) : Locals :=
  let 'mkLocals a b c d e f g h i j k m n := l in mkLocals a b c d e f g h v j k m n.

Definition set_clearSharedStorage v (l : Locals) : Locals :=
  let 'mkLocals a b c d e f g h i j k m n := l in mkLocals a b c d e f g h i v k m n.

Definition set_idxResponse v (l : Locals) : Locals :=
  let 'mkLocals a b c d e f g h i j k m n := l in mkLocals a b c d e f g h i j v m n.

Definition set_metaFromResp v (l : Locals) : Locals :=
  let 'mkLocals a b c d e f g h i j k m n := l in mkLocals a b c d e f g h i j k v n.

Definition log (c : Call) (l : Locals) : Locals :=
  let 'mkLocals a b c0 d e f g h i j k m n := l in
  mkLocals a b c0 d e f g h i j k m (n ++ [c]).

(** The value [run] resolves with.  A property the source leaves out of
    the object is [None]. *)
Record IdxTransaction := mkIdxTransaction {
  tx_idxResponse : option IdxResponse;
  tx_status : IdxStatus;
  tx_meta : option TransactionMeta;
  tx_enabledFeatures : option (list IdxFeature);
  tx_availableSteps : option (list NextStep);
  tx_tokens : option TokenManager.Tokens;
  tx_nextStep : option NextStep;
  tx_messages : option (list IdxMessage);
  tx_error : option Error
}.

Definition M := Eff.M Locals.

Section Run.

Variable authClient : Collaborators.

Definition getEnabledFeatures (idxResponse : IdxResponse) : list IdxFeature :=
  let res := [] in
  let res :=
    if existsb (String.eqb "currentAuthenticator-recover") (actions idxResponse)
    then res ++ [PASSWORD_RECOVERY] else res in
  let res :=
    if existsb (fun r => String.eqb (remediation_name r) "select-enroll-profile")
               (neededToProceed idxResponse)
    then res ++ [REGISTRATION] else res in
  let res :=
    if existsb (fun r => String.eqb (remediation_name r) "redirect-idp")
               (neededToProceed idxResponse)
    then res ++ [SOCIAL_IDP] else res in
  res.

Definition getAvailableSteps (remediations : list IdxRemediation) : list NextStep :=
  flat_map (fun remediation =>
    match remediatorMap authClient (remediation_name remediation) with
    | Some T => [T remediation]
    | None => []
    end) remediations.

(** [await call]: the call is logged with its settlement; a rejection is
    thrown at the [await]. *)
Definition await {A} (c : Call) (result : Error + A) : M A :=
  modify (log c) ;;
  match result with
  | inr a => ret a
  | inl e => throw e
  end.

Definition unsupported_flow : string :=
  "Current flow is not supported, check policy settings in your org.".

(** The [try] block of [run]. *)
Definition run_try (options : RunOptions) : M unit :=
  (* Only one flow can be operating at a time *)
  match flow options with
  | Some f => when (Js.truthy_string (Some f)) (modify (log (SetFlow f)))
  | None => ret tt
  end ;;
  (* Try to resume saved transaction *)
  modify (log (GetSavedTransactionMeta (state options))) ;;
  modify (set_metaFromResp (getSavedTransactionMeta authClient (state options))) ;;
  saved <- gets metaFromResp ;;
  let savedHandle := match saved with Some m => interactionHandle m | None => None end in
  interactionHandle <-
    (if negb (Js.truthy_string savedHandle) then
       (* start a new transaction *)
       modify (log (Clear None)) ;;
       let answer := interact authClient (sso options) (state options) (scopes options) in
       interactResponse <-
         await (Interact (sso options) (state options) (scopes options) answer) answer ;;
       modify (set_metaFromResp (interact_meta interactResponse)) ;;
       ret (interact_interactionHandle interactResponse)
     else ret savedHandle) ;;
  (* Introspect to get idx response *)
  metaFromResp <- gets metaFromResp ;;
  let sso' := match metaFromResp with Some m => meta_sso m | None => None end in
  let answer := introspect authClient sso' interactionHandle in
  response <- await (Introspect sso' interactionHandle answer) answer ;;
  modify (set_idxResponse (Some response)) ;;
  if negb (Js.truthy_object (remediators options))
     && negb (Js.truthy_object (options_actions options)) then
    (* handle start transaction *)
    modify (set_meta metaFromResp) ;;
    modify (set_enabledFeatures (Some (getEnabledFeatures response))) ;;
    modify (set_availableSteps (Some (getAvailableSteps (neededToProceed response))))
  else
    (* Can we handle the remediations? *)
    let answer := remediate authClient response options (stateHandle (rawIdxState response)) in
    resp <- await (Remediate answer) answer ;;
    (* Track fields from remediation response *)
    modify (set_nextStep (nextStepFromResp resp)) ;;
    modify (set_messages (messagesFromResp resp)) ;;
    (* Save intermediate idx response in storage to reduce introspect call *)
    match nextStepFromResp resp, idxResponseFromResp resp with
    | Some _, Some r => modify (log (SaveIdxResponse (rawIdxState r)))
    | _, _ => ret tt
    end ;;
    when (terminal resp)
      (modify (set_status TERMINAL) ;;
       modify (set_shouldClearTransaction true) ;;
       (* transaction may be continued in another tab *)
       modify (set_clearSharedStorage false)) ;;
    if canceled resp then
      modify (set_status CANCELED) ;;
      modify (set_shouldClearTransaction true)
    else
      let code :=
        match idxResponseFromResp resp with
        | Some r => interactionCode r
        | None => None
        end in
      if Js.truthy_string code then
        (* Flows may end with interactionCode before the key remediation being hit *)
        (* Double check if flow is finished to mitigate confusion with the wrapper methods *)
        match flowMonitor options with
        | None => throw (TypeError authClient)
        | Some monitor =>
            finished <- await (IsFinished (isFinished monitor)) (isFinished monitor) ;;
            if negb finished then
              throw (AuthSdkError authClient unsupported_flow)
            else
              match metaFromResp with
              | None => throw (TypeError authClient)
              | Some m =>
                  let params :=
                    mkExchangeParams code (clientId m) (codeVerifier m)
                                     (ignoreSignature m) (redirectUri m) (meta_scopes m) in
                  let answer := exchangeCodeForTokens authClient params (urls m) in
                  t <- await (ExchangeCodeForTokens params (urls m) answer) answer ;;
                  modify (set_tokens (Some t)) ;;
                  modify (set_status SUCCESS) ;;
                  modify (set_shouldClearTransaction true)
              end
        end
      else ret tt.

(** The [catch] block of [run]. *)
Definition run_catch (err : Error) : M unit :=
  modify (set_error (Some err)) ;;
  modify (set_status FAILURE) ;;
  modify (set_shouldClearTransaction true).

Definition initial : Locals :=
  mkLocals None None None None None None None PENDING false true None None [].

(** [run(authClient, options)]: the transaction it resolves with and the
    collaborator calls it made. *)
Definition run (options : RunOptions) : IdxTransaction * list Call :=
  let (_, l) := try_catch (run_try options) run_catch initial in
  let l :=
    if shouldClearTransaction l
    then log (Clear (Some (clearSharedStorage l))) l
    else l in
  (mkIdxTransaction
     (idxResponse l)
     (status l)
     (meta l)
     (enabledFeatures l)
     (availableSteps l)
     (match tokens l with Some t => response_tokens t | None => None end)
     (nextStep l)
     (messages l)
     (error l),
   calls l).

End Run.

End Idx.

(** ** The [VerifyAuthenticator] remediator *)

Module VerifyAuthenticator.

Record Authenticator := mkAuthenticator {
  type : string
}.

Record VerifyAuthenticatorValues := mkValues {
  verificationCode : option string;
  password : option string;
  otp : option string
}.

(** An instance: what the inherited [getAuthenticator()] returns, and
    [this.values]. *)
Record Remediator := mkRemediator {
  getAuthenticator : Authenticator;
  values : VerifyAuthenticatorValues
}.

Definition canRemediate (this : Remediator) : bool :=
  let challengeType := type (getAuthenticator this) in
  if String.eqb challengeType "password" then
    Js.truthy_string (password (values this))
  else
    Js.truthy_string (Js.or_string (verificationCode (values this)) (otp (values this))).

Definition mapCredentials (this : Remediator) : option string :=
  let challengeType := type (getAuthenticator this) in
  if String.eqb challengeType "password" then
    password (values this)
  else
    Js.or_string (verificationCode (values this)) (otp (values this)).

End VerifyAuthenticator.

(** * Properties *)

(** ** Facts about objects used as maps *)

Module JsObjFacts.

Import JsObj.

Section Facts.

Context {V : Type}.

Implicit Types o : JsObj.t V.

Lemma get_set_same o k v : get (set o k v) k = Some v.
Proof.
  induction o as [|[k' v'] rest IH]; simpl.
  - now rewrite String.eqb_refl.
  - destruct (String.eqb k' k) eqn:E; simpl; rewrite E; auto.
Qed.

Lemma get_set_other o k k' v : k <> k' -> get (set o k v) k' = get o k'.
Proof.
  intros Hne. induction o as [|[k0 v0] rest IH]; simpl.
  - destruct (String.eqb k k') eqn:E; auto.
    apply String.eqb_eq in E. contradiction.
  - destruct (String.eqb k0 k) eqn:E; simpl.
    + apply String.eqb_eq in E. subst k0.
      destruct (String.eqb k k') eqn:E'; auto.
      apply String.eqb_eq in E'. contradiction.
    + destruct (String.eqb k0 k'); auto.
Qed.

Lemma get_delete_same o k : get (delete o k) k = None.
Proof.
  induction o as [|[k' v'] rest IH]; simpl; auto.
  destruct (String.eqb k' k) eqn:E; simpl; auto. now rewrite E.
Qed.

Lemma get_delete_other o k k' : k <> k' -> get (delete o k) k' = get o k'.
Proof.
  intros Hne. induction o as [|[k0 v0] rest IH]; simpl; auto.
  destruct (String.eqb k0 k) eqn:E; simpl.
  - apply String.eqb_eq in E. subst k0.
    destruct (String.eqb k k') eqn:E'; auto.
    apply String.eqb_eq in E'. contradiction.
  - destruct (String.eqb k0 k'); auto.
Qed.

Lemma get_In_keys o k v : get o k = Some v -> In k (keys o).
Proof.
  induction o as [|[k' v'] rest IH]; simpl; [discriminate|].
  destruct (String.eqb k' k) eqn:E; intros H.
  - apply String.eqb_eq in E. now left.
  - right. now apply IH.
Qed.

Lemma In_keys_get o k : In k (keys o) -> exists v, get o k = Some v.
Proof.
  induction o as [|[k' v'] rest IH]; simpl; [tauto|].
  intros [->|H].
  - rewrite String.eqb_refl. eauto.
  - destruct (String.eqb k' k); eauto.
Qed.

End Facts.

End JsObjFacts.

(** ** The token manager *)

Module TokenManagerProps.

Import TokenManager.

(** *** Sample inputs *)

(** The kind predicates as property tests, the default storage keys. *)
Definition sample_imports : Imports :=
  mkImports
    (fun t => Js.truthy_string (idToken t))
    (fun t => Js.truthy_string (accessToken t))
    (fun t => Js.truthy_string (refreshToken t))
    "idToken" "accessToken" "refreshToken"
    (fun msg => mkError "AuthSdkError" msg None)
    (fun _ => ParsedFalsy)
    (fun _ => "").

Definition sample_options : Options := mkOptions true true 30 "okta-token-storage" 0.

Definition sample_id (expires : Z) : Token :=
  mkToken (Some ["openid"]) (Some expires) (Some "id.jwt") None None.

Definition sample_access (expires : Z) : Token :=
  mkToken (Some ["openid"]) (Some expires) None (Some "access.jwt") None.

(** *** Expiry *)

(** C8.  A token whose [expiresAt] is one second short of
    [now + expireEarlySeconds] has expired; one whose [expiresAt] is one
    second past it has not. *)
Theorem hasExpired_boundary (st : State) (early late : Token) :
  expiresAt early = Some (clock_now st + expireEarlySeconds (options st) - 1) ->
  expiresAt late = Some (clock_now st + expireEarlySeconds (options st) + 1) ->
  hasExpired st early = true /\ hasExpired st late = false.
Proof.
  intros He Hl. unfold hasExpired, getExpireTime. rewrite He, Hl. split.
  - apply Z.leb_le. lia.
  - apply Z.leb_gt. lia.
Qed.

Lemma hasExpired_boundary_witness :
  hasExpired (fresh 1000 sample_options [] false) (sample_id 1029) = true
  /\ hasExpired (fresh 1000 sample_options [] false) (sample_id 1031) = false.
Proof.
  apply (hasExpired_boundary (fresh 1000 sample_options [] false)
           (sample_id 1029) (sample_id 1031)); reflexivity.
Defined.

(** *** Validation and [add] *)

Ltac exec :=
  unfold add, _add, validateToken, setExpireEventTimeout, clearExpireEventTimeout,
    clearTimeout, setTimeout, emitAdded, emitRemoved, emitError, emitRenewed, emitExpired,
    emit, getStorage, setStorage, warn, when, bind, gets, modify, ret, throw;
  cbn -[invalidToken expireEventWait cancel delay].

Section Add.

Variable imp : Imports.

(** The token value lacks [scopes], lacks an [expiresAt] number, or is of
    none of the three kinds ([None]: it is not an object at all). *)
Definition malformed (token : option Token) : Prop :=
  match token with
  | None => True
  | Some t =>
      scopes t = None
      \/ expiresAt t = None
      \/ (isIDToken imp t = false /\ isAccessToken imp t = false
          /\ isRefreshToken imp t = false)
  end.

Lemma invalidToken_malformed (token : option Token) :
  invalidToken imp token = true <-> malformed token.
Proof.
  destruct token as [t|]; cbn; [|tauto].
  destruct (scopes t), (expiresAt t) as [z|], (isIDToken imp t),
    (isAccessToken imp t), (isRefreshToken imp t); cbn;
    try destruct (Z.eqb_spec z 0); cbn;
    intuition discriminate.
Qed.

Lemma invalidToken_wellformed (token : option Token) :
  invalidToken imp token = false <-> ~ malformed token.
Proof.
  rewrite <- invalidToken_malformed. destruct (invalidToken imp token); split; intros H.
  - discriminate.
  - exfalso. apply H. reflexivity.
  - discriminate.
  - reflexivity.
Qed.


End Add.


(** *** Throttling of automatic renewal *)

(** The queue after the attempts at the given times, oldest first,
    starting from the empty queue of a new manager. *)
Definition queue_after (history : list Z) : list Z :=
  fold_left (fun queue dateNow => snd (shouldThrottleRenew queue dateNow)) history [].

(** Consecutive attempts are more than 30 seconds apart. *)
Fixpoint spaced (times : list Z) : Prop :=
  match times with
  | a :: (b :: _) as rest => b - a > 30 * 1000 /\ spaced rest
  | _ => True
  end.

Lemma nth_error_last_app (l : list Z) (t : Z) :
  nth_error (l ++ [t]) (List.length (l ++ [t]) - 1) = Some t.
Proof.
  rewrite length_app. cbn [List.length].
  replace (List.length l + 1 - 1)%nat with (List.length l + 0)%nat by lia.
  now rewrite nth_error_app2, Nat.add_0_r, Nat.sub_diag by lia.
Qed.

(** One call, on a queue of at most nine recorded attempts. *)
Lemma shouldThrottleRenew_step (queue : list Z) (dateNow : Z) :
  (List.length queue <= 9)%nat ->
  shouldThrottleRenew queue dateNow =
    match queue with
    | firstTime :: rest =>
        if Nat.eqb (List.length queue) 9
        then (dateNow - firstTime <? 30 * 1000, rest ++ [dateNow])
        else (false, queue ++ [dateNow])
    | [] => (false, [dateNow])
    end.
Proof.
  intros Hlen. unfold shouldThrottleRenew.
  destruct queue as [|firstTime rest]; [reflexivity|].
  rewrite length_app. cbn [List.length] in *.
  destruct (Nat.eqb_spec (S (List.length rest)) 9) as [E|E].
  - replace (10 <=? Z.of_nat (S (List.length rest) + 1)) with true
      by (symmetry; apply Z.leb_le; lia).
    cbn [app]. now rewrite nth_error_last_app.
  - replace (10 <=? Z.of_nat (S (List.length rest) + 1)) with false
      by (symmetry; apply Z.leb_gt; lia).
    reflexivity.
Qed.

Lemma queue_after_snoc (history : list Z) (t : Z) :
  queue_after (history ++ [t]) = snd (shouldThrottleRenew (queue_after history) t).
Proof. unfold queue_after. now rewrite fold_left_app. Qed.

Lemma skipn_tl {A} (n : nat) (l : list A) : tl (skipn n l) = skipn (S n) l.
Proof.
  revert l. induction n as [|n IH]; intros [|x l]; cbn; auto.
Qed.

(** The queue holds the last nine recorded attempts. *)
Lemma queue_after_window (history : list Z) :
  queue_after history = skipn (List.length history - 9) history.
Proof.
  induction history as [|t history IH] using rev_ind; [reflexivity|].
  rewrite queue_after_snoc, shouldThrottleRenew_step, IH.
  2:{ rewrite IH, length_skipn. lia. }
  rewrite length_app. cbn [List.length].
  destruct (skipn (List.length history - 9) history) as [|firstTime rest] eqn:E.
  - assert (Hlen : List.length (skipn (List.length history - 9) history) = 0%nat)
      by now rewrite E.
    rewrite length_skipn in Hlen.
    assert (List.length history = 0)%nat by lia.
    destruct history; [reflexivity | discriminate].
  - assert (Hlen : List.length (skipn (List.length history - 9) history)
                   = S (List.length rest)) by now rewrite E.
    rewrite length_skipn in Hlen. cbn [snd List.length].
    destruct (Nat.eqb_spec (S (List.length rest)) 9) as [E9|E9]; cbn [snd].
    + replace (List.length history + 1 - 9)%nat with (S (List.length history - 9)) by lia.
      rewrite skipn_app.
      replace (S (List.length history - 9) - List.length history)%nat with 0%nat by lia.
      rewrite <- skipn_tl, E. reflexivity.
    + replace (List.length history + 1 - 9)%nat with 0%nat by lia.
      replace (List.length history - 9)%nat with 0%nat in E by lia.
      cbn in E. rewrite E. reflexivity.
Qed.

(** The verdict on an attempt, from the times of the attempts before it. *)
Lemma shouldThrottleRenew_verdict (history : list Z) (t : Z) :
  fst (shouldThrottleRenew (queue_after history) t) =
    match nth_error (history ++ [t]) (List.length history - 9) with
    | Some oldest => (9 <=? List.length history)%nat && (t - oldest <? 30 * 1000)
    | None => false
    end.
Proof.
  rewrite shouldThrottleRenew_step, queue_after_window.
  2:{ rewrite queue_after_window, length_skipn. lia. }
  destruct (le_lt_dec 9 (List.length history)) as [Hge|Hlt].
  - rewrite nth_error_app1 by lia.
    replace (9 <=? List.length history)%nat with true by (symmetry; apply Nat.leb_le; lia).
    destruct (skipn (List.length history - 9) history) as [|firstTime rest] eqn:E.
    + assert (Hlen : List.length (skipn (List.length history - 9) history) = 0%nat)
        by now rewrite E.
      rewrite length_skipn in Hlen. lia.
    + assert (Hlen : List.length (skipn (List.length history - 9) history)
                     = S (List.length rest)) by now rewrite E.
      rewrite length_skipn in Hlen. cbn [List.length].
      replace (Nat.eqb (S (List.length rest)) 9) with true
        by (symmetry; apply Nat.eqb_eq; lia).
      assert (Hnth : nth_error history (List.length history - 9) = Some firstTime).
      { rewrite <- (firstn_skipn (List.length history - 9) history) at 1.
        rewrite nth_error_app2 by (rewrite length_firstn; lia).
        rewrite length_firstn, E.
        replace (List.length history - 9 - Nat.min (List.length history - 9) (List.length history))%nat
          with 0%nat by lia.
        reflexivity. }
      rewrite Hnth. reflexivity.
  - replace (List.length history - 9)%nat with 0%nat by lia. cbn [skipn].
    replace (9 <=? List.length history)%nat with false by (symmetry; apply Nat.leb_gt; lia).
    destruct history as [|a history]; [reflexivity|].
    destruct (Nat.eqb_spec (List.length (a :: history)) 9) as [E|_]; [lia|].
    destruct (nth_error ((a :: history) ++ [t]) 0); reflexivity.
Qed.

Lemma spaced_app_inv (l1 l2 : list Z) : spaced (l1 ++ l2) -> spaced l2.
Proof.
  induction l1 as [|a l1 IH]; cbn [app]; auto.
  intros H. apply IH. destruct (l1 ++ l2); [exact I | apply H].
Qed.

Lemma spaced_gap (times : list Z) (a : Z) :
  spaced (a :: times) ->
  forall b, In b times -> b - a > 30 * 1000.
Proof.
  revert a. induction times as [|c times IH]; intros a H b Hb; [destruct Hb|].
  destruct H as [Hac Hrest]. destruct Hb as [->|Hb]; [exact Hac|].
  specialize (IH c Hrest b Hb). lia.
Qed.

(** Attempts more than 30 seconds apart: the newest is more than 30
    seconds after any earlier one. *)
Lemma spaced_nth (times : list Z) (t : Z) (i : nat) (oldest : Z) :
  spaced (times ++ [t]) ->
  nth_error times i = Some oldest ->
  t - oldest > 30 * 1000.
Proof.
  intros Hsp Hnth.
  destruct (nth_error_split _ _ Hnth) as (l1 & l2 & -> & _).
  rewrite <- app_assoc in Hsp. apply spaced_app_inv in Hsp. cbn [app] in Hsp.
  apply (spaced_gap _ _ Hsp). apply in_or_app. right. now left.
Qed.

Ltac exec_renew :=
  unfold onTokenExpiredHandler, renew, _renewToken, getTokens, get, remove,
    clearExpireEventTimeout, clearTimeout, emitError, emitRemoved, emit, getStorage,
    setStorage, try_catch, when, bind, gets, modify, ret, throw;
  cbn -[shouldThrottleRenew cancel fold_left renew_missing].

Section Throttle.

Variable imp : Imports.

(** The synchronous part of [renew] completes normally, emits nothing and
    leaves the throttle queue and the options alone. *)
Lemma renew_quiet (key : string) (st : State) :
  exists p st',
    renew imp key st = (Normal p, st')
    /\ emitter st' = emitter st
    /\ renewTimeQueue st' = renewTimeQueue st
    /\ options st' = options st.
Proof.
  destruct st. exec_renew.
  destruct (JsObj.get renewPromise0 key); cbn -[cancel fold_left renew_missing]; eauto 6.
  destruct (JsObj.get tokenStorage0 key); cbn -[cancel fold_left renew_missing]; eauto 6.
  destruct (JsObj.get expireTimeouts0 key); cbn -[cancel fold_left renew_missing];
    destruct (tokens_refreshToken _); cbn -[cancel fold_left renew_missing]; eauto 6.
Qed.

(** The handler with automatic renewal on: the attempt is recorded, and
    the verdict of [shouldThrottleRenew] decides between the throttling
    error and [renew]. *)
Lemma onTokenExpiredHandler_step (st : State) (t : Z) (key : string) :
  autoRenew (options st) = true ->
  let recorded :=
    with_renewTimeQueue (fun _ => snd (shouldThrottleRenew (renewTimeQueue st) t)) st in
  onTokenExpiredHandler imp t key st =
    if fst (shouldThrottleRenew (renewTimeQueue st) t)
    then (Normal tt,
          with_emitter
            (fun l => l ++ [EVENT_ERROR (AuthSdkError imp throttle_message)]) recorded)
    else (Normal tt, snd (renew imp key recorded)).
Proof.
  intros Hauto recorded.
  destruct (renew_quiet key recorded) as (p & s1 & Hrenew & _).
  subst recorded.
  unfold onTokenExpiredHandler at 1. unfold bind at 1, gets at 1. rewrite Hauto.
  unfold bind at 1, gets at 1.
  destruct (shouldThrottleRenew (renewTimeQueue st) t) as [res queue'].
  cbn [fst snd] in *. unfold bind at 1, modify at 1.
  destruct res.
  - reflexivity.
  - unfold bind. rewrite Hrenew. reflexivity.
Qed.

(** Every attempt is recorded, throttled or not, and the options stay. *)
Lemma onTokenExpiredHandler_records (st : State) (history : list Z) (t : Z) (key : string) :
  autoRenew (options st) = true ->
  renewTimeQueue st = queue_after history ->
  exists st',
    onTokenExpiredHandler imp t key st = (Normal tt, st')
    /\ renewTimeQueue st' = queue_after (history ++ [t])
    /\ options st' = options st.
Proof.
  intros Hauto Hqueue.
  rewrite (onTokenExpiredHandler_step st t key Hauto).
  rewrite queue_after_snoc, <- Hqueue.
  set (recorded := with_renewTimeQueue _ st).
  destruct (renew_quiet key recorded) as (p & s1 & Hrenew & _ & Hq & Hopt).
  destruct (fst (shouldThrottleRenew (renewTimeQueue st) t)); eexists; split;
    try reflexivity.
  - subst recorded. destruct st. split; reflexivity.
  - rewrite Hrenew. cbn [snd]. rewrite Hq, Hopt.
    subst recorded. destruct st. split; reflexivity.
Qed.

(** A run of expired-token events, each with its time and key. *)
Definition expireAll (attempts : list (Z * string)) : M unit :=
  forEach attempts (fun a => onTokenExpiredHandler imp (fst a) (snd a)).

(** After any sequence of attempts the queue is the one [queue_after]
    computes from their times. *)
Lemma expireAll_records (attempts : list (Z * string)) (st : State) (history : list Z) :
  autoRenew (options st) = true ->
  renewTimeQueue st = queue_after history ->
  exists st',
    expireAll attempts st = (Normal tt, st')
    /\ renewTimeQueue st' = queue_after (history ++ map fst attempts)
    /\ autoRenew (options st') = true.
Proof.
  revert st history. induction attempts as [|[t key] attempts IH]; intros st history Hauto Hq.
  - exists st. cbn. rewrite app_nil_r. auto.
  - destruct (onTokenExpiredHandler_records st history t key Hauto Hq)
      as (s1 & Hrun1 & Hq1 & Hopt1).
    destruct (IH s1 (history ++ [t])) as (st' & Hrun & Hq' & Hauto'); auto.
    { now rewrite Hopt1. }
    exists st'. unfold expireAll in *. cbn [forEach fst snd map]. unfold bind.
    rewrite Hrun1, Hrun. rewrite <- app_assoc in Hq'. auto.
Qed.

(** C6.  Let the queue of [st] be the one left by the attempts at the
    times [history] (after any sequence of attempts it is:
    [expireAll_records]).  For the next expired-token event, at time [t],
    with automatic renewal on: (1) if at least nine attempts were recorded
    before and [t] is less than 30 seconds after the oldest of the last ten
    timestamps, the handler emits the throttling error and nothing else
    changes but the queue: no renewal is issued; (2) if all attempts,
    this one included, are more than 30 seconds apart, the attempt is not
    throttled: the handler emits nothing and hands over to [renew];
    (3) either way the attempt is recorded. *)
Theorem throttle_window (st : State) (history : list Z) (t : Z) (key : string) :
  autoRenew (options st) = true ->
  renewTimeQueue st = queue_after history ->
  let recorded := with_renewTimeQueue (fun _ => queue_after (history ++ [t])) st in
  let st' := snd (onTokenExpiredHandler imp t key st) in
  (forall oldest,
     (9 <= List.length history)%nat ->
     nth_error (history ++ [t]) (List.length history - 9) = Some oldest ->
     t - oldest < 30 * 1000 ->
     st' = with_emitter
             (fun l => l ++ [EVENT_ERROR (AuthSdkError imp throttle_message)]) recorded
     /\ requests st' = requests st
     /\ inflight st' = inflight st
     /\ renewPromise st' = renewPromise st)
  /\ (spaced (history ++ [t]) ->
      fst (shouldThrottleRenew (renewTimeQueue st) t) = false
      /\ st' = snd (renew imp key recorded)
      /\ emitter st' = emitter st)
  /\ renewTimeQueue st' = queue_after (history ++ [t]).
Proof.
  intros Hauto Hqueue recorded st'.
  assert (Hverdict := shouldThrottleRenew_verdict history t).
  assert (Hsnd := queue_after_snoc history t).
  rewrite <- Hqueue in Hverdict, Hsnd.
  assert (Hstep := onTokenExpiredHandler_step st t key Hauto).
  cbv zeta in Hstep. rewrite <- Hsnd in Hstep. fold recorded in Hstep.
  subst st'. rewrite Hstep. clear Hstep.
  destruct (renew_quiet key recorded) as (p & s1 & Hrenew & Hemit & Hq & _).
  assert (Hnot : spaced (history ++ [t]) ->
                 fst (shouldThrottleRenew (renewTimeQueue st) t) = false).
  { intros Hsp. rewrite Hverdict.
    destruct (le_lt_dec 9 (List.length history)) as [Hge|Hlt].
    - rewrite nth_error_app1 by lia.
      destruct (nth_error history (List.length history - 9)) as [oldest|] eqn:Hnth;
        [|reflexivity].
      pose proof (spaced_nth _ _ _ _ Hsp Hnth) as Hgap.
      replace (t - oldest <? 30 * 1000) with false by (symmetry; apply Z.ltb_ge; lia).
      apply andb_false_r.
    - replace (9 <=? List.length history)%nat with false
        by (symmetry; apply Nat.leb_gt; exact Hlt).
      destruct (nth_error _ _); reflexivity. }
  split; [|split].
  - intros oldest Hnine Hnth Hclose.
    rewrite Hnth in Hverdict.
    replace (9 <=? List.length history)%nat with true in Hverdict
      by (symmetry; apply Nat.leb_le; exact Hnine).
    replace (t - oldest <? 30 * 1000) with true in Hverdict
      by (symmetry; apply Z.ltb_lt; exact Hclose).
    rewrite Hverdict. cbn [snd]. subst recorded. destruct st. cbn. auto.
  - intros Hsp. specialize (Hnot Hsp). rewrite Hnot. cbn [snd].
    split; [reflexivity|]. split; [reflexivity|].
    rewrite Hrenew. cbn [snd]. rewrite Hemit.
    subst recorded. destruct st. reflexivity.
  - destruct (fst (shouldThrottleRenew (renewTimeQueue st) t)); cbn [snd].
    + subst recorded. destruct st. reflexivity.
    + rewrite Hrenew. cbn [snd]. rewrite Hq. subst recorded. destruct st. reflexivity.
Qed.

End Throttle.

(** *** Renewal *)

Ltac exec_chain :=
  unfold settle, renew_chain, renew_then, renew_catch, renew_finally,
    renew, _renewToken, getTokens, get, remove, _add, validateToken,
    setExpireEventTimeout, clearExpireEventTimeout, clearTimeout, setTimeout,
    emitError, emitRemoved, emitAdded, emitRenewed, emit, getStorage, setStorage,
    finally, try_catch, when, bind, gets, modify, ret, throw;
  cbn -[cancel fold_left hasExpired invalidToken expireEventWait delay
        isAuthorizationError renew_missing].

Section Renewal.

Variable imp : Imports.

(** C5.  The transport rejects the renewal behind chain [p], started for
    [key], with an authorization error.  If the token stored under [key]
    has expired by then it is deleted from storage and ['removed'] is
    emitted with it; otherwise storage is left as it is and ['removed'] is
    emitted without a token.  In both cases the error gets the key as its
    [tokenKey], ['error'] is emitted with it, and the chain rejects with
    it. *)
Theorem renew_authorization_failure (st : State) (p : nat) (key : string) (err : Error) :
  lookup_inflight (inflight st) p = Some key ->
  isAuthorizationError err = true ->
  exists st',
    settle imp p (inl err) st = Some (Thrown (set_tokenKey err key), st')
    /\ (forall current,
          JsObj.get (tokenStorage st) key = Some current ->
          hasExpired st current = true ->
          tokenStorage st' = JsObj.delete (tokenStorage st) key
          /\ emitter st' = emitter st ++ [EVENT_REMOVED key (Some current);
                                          EVENT_ERROR (set_tokenKey err key)])
    /\ ((forall current,
           JsObj.get (tokenStorage st) key = Some current ->
           hasExpired st current = false) ->
        tokenStorage st' = tokenStorage st
        /\ emitter st' = emitter st ++ [EVENT_REMOVED key None;
                                        EVENT_ERROR (set_tokenKey err key)]).
Proof.
  intros Hp Herr. unfold settle. rewrite Hp.
  unfold renew_chain, finally, try_catch, throw, renew_catch. rewrite Herr.
  set (s0 := with_inflight _ st).
  assert (Hexp : forall t, hasExpired s0 t = hasExpired st t)
    by (intros t; subst s0; destruct st; reflexivity).
  assert (Hsto : tokenStorage s0 = tokenStorage st) by (subst s0; destruct st; reflexivity).
  assert (Hemi : emitter s0 = emitter st) by (subst s0; destruct st; reflexivity).
  clearbody s0. rewrite <- Hsto, <- Hemi.
  setoid_rewrite <- Hexp. clear Hexp Hsto Hemi.
  destruct s0. exec_chain.
  destruct (JsObj.get tokenStorage0 key) as [current|] eqn:Hget; cbn -[cancel hasExpired].
  - destruct (hasExpired _ current) eqn:Hexp; cbn -[cancel hasExpired].
    + destruct (JsObj.get expireTimeouts0 key); cbn -[cancel hasExpired];
        eexists; (split; [reflexivity|]); split.
      all: try (intros c [= <-] _; cbn; rewrite <- app_assoc; auto).
      all: intros H; specialize (H current eq_refl); congruence.
    + eexists; (split; [reflexivity|]); split.
      * intros c [= <-] H. congruence.
      * intros _. cbn. rewrite <- app_assoc. auto.
  - eexists; (split; [reflexivity|]); split.
    + intros c [=].
    + intros _. cbn. rewrite <- app_assoc. auto.
Qed.

(** What keeps [renew] from starting a second renewal: the promise recorded
    for the key. *)
Lemma renew_memoized (st : State) (key : string) (p : nat) :
  JsObj.get (renewPromise st) key = Some p ->
  renew imp key st = (Normal (PromiseChain p), st).
Proof.
  intros H. unfold renew, bind, gets, ret. now rewrite H.
Qed.

(** A call that hands out a chain leaves that chain recorded for the key. *)
Lemma renew_records (st st1 : State) (key : string) (p : nat) :
  renew imp key st = (Normal (PromiseChain p), st1) ->
  JsObj.get (renewPromise st1) key = Some p.
Proof.
  destruct st. exec_chain.
  destruct (JsObj.get renewPromise0 key) as [q|] eqn:Hmemo; cbn -[cancel fold_left renew_missing].
  - intros [= <- <-]. exact Hmemo.
  - destruct (JsObj.get tokenStorage0 key); cbn -[cancel fold_left renew_missing]; [|intros [=]].
    destruct (JsObj.get expireTimeouts0 key); cbn -[cancel fold_left renew_missing];
      match goal with
      | |- context [tokens_refreshToken ?x] => destruct (tokens_refreshToken x)
      end; cbn -[cancel fold_left renew_missing];
      intros [= <- <-]; cbn; apply JsObjFacts.get_set_same.
Qed.

(** However the chain settles, its [finally] has removed the key's entry. *)
Lemma settle_clears (st : State) (p : nat) (key : string) (outcome : Error + option Token) :
  lookup_inflight (inflight st) p = Some key ->
  exists r st',
    settle imp p outcome st = Some (r, st')
    /\ JsObj.get (renewPromise st') key = None.
Proof.
  intros Hp. unfold settle. rewrite Hp. unfold renew_chain, finally.
  destruct (try_catch _ _ _) as [r s']. unfold renew_finally, modify.
  exists r. eexists. split; [reflexivity|].
  destruct s'. cbn. apply JsObjFacts.get_delete_same.
Qed.

(** [add] of a valid token drops the promise recorded for the key and
    leaves the requests and the chains in flight alone; the [renew] that
    follows starts a chain with the next identity and sends a request.
    (For a key that names a member of [Object.prototype] that [renew] would
    find the inherited member in [renewPromise].) *)
Lemma renew_after_add (st : State) (key : string) (t : Token) :
  ~ malformed imp (Some t) ->
  JsObj.get (renewPromise (snd (add imp key (Some t) st))) key = None
  /\ inflight (snd (add imp key (Some t) st)) = inflight st
  /\ requests (snd (add imp key (Some t) st)) = requests st
  /\ exists st2 request,
       renew imp key (snd (add imp key (Some t) st))
       = (Normal (PromiseChain (nextPromise st)), st2)
       /\ requests st2 = requests st ++ [request]
       /\ inflight st2 = inflight st ++ [(nextPromise st, key)].
Proof.
  intros H. apply invalidToken_wellformed in H.
  destruct st. unfold add, warn. exec_chain.
  destruct isLocalhost0; cbn -[cancel fold_left invalidToken expireEventWait delay];
    rewrite H; cbn -[cancel fold_left expireEventWait delay];
    destruct (JsObj.get expireTimeouts0 key); cbn -[cancel fold_left expireEventWait delay];
    repeat (progress (rewrite ?JsObjFacts.get_delete_same, ?JsObjFacts.get_set_same);
            cbn -[cancel fold_left expireEventWait delay]);
    (split; [reflexivity|]); (split; [reflexivity|]); (split; [reflexivity|]);
    match goal with
    | |- context [tokens_refreshToken ?x] => destruct (tokens_refreshToken x)
    end; cbn -[cancel fold_left expireEventWait delay];
    do 2 eexists; (split; [reflexivity|]); split; reflexivity.
Qed.
End Renewal.

(** C4 (as the code has it).  A call of [renew(key)] made while the
    promise of an earlier call is still recorded for the key returns that
    same promise and changes nothing, so no second request goes out; a call
    that hands out a chain leaves it recorded, so the call that follows it
    directly gets the same chain; once a chain for the key settles, in
    whichever way, the key has no recorded promise.  The record does not
    last as long as the renewal is in flight: for a key that names no
    member of [Object.prototype], [add(key, token)] with a valid token drops
    it and leaves the chains in flight as they are, and the [renew(key)]
    that follows starts a chain with the next identity and sends one more
    request. *)
Theorem renew_deduplicated (imp : Imports) (st : State) (key : string) (p : nat) :
  (JsObj.get (renewPromise st) key = Some p ->
     renew imp key st = (Normal (PromiseChain p), st))
  /\ (forall st1,
        renew imp key st = (Normal (PromiseChain p), st1) ->
        renew imp key st1 = (Normal (PromiseChain p), st1))
  /\ (lookup_inflight (inflight st) p = Some key ->
      forall outcome,
      exists r st',
        settle imp p outcome st = Some (r, st')
        /\ JsObj.get (renewPromise st') key = None)
  /\ (forall t,
        JsKey.ordinary key = true ->
        ~ malformed imp (Some t) ->
        JsObj.get (renewPromise (snd (add imp key (Some t) st))) key = None
        /\ inflight (snd (add imp key (Some t) st)) = inflight st
        /\ requests (snd (add imp key (Some t) st)) = requests st
        /\ exists st2 request,
             renew imp key (snd (add imp key (Some t) st))
             = (Normal (PromiseChain (nextPromise st)), st2)
             /\ requests st2 = requests st ++ [request]
             /\ inflight st2 = inflight st ++ [(nextPromise st, key)]).
Proof.
  split; [|split; [|split]].
  - apply renew_memoized.
  - intros st1 H. apply renew_memoized. exact (renew_records imp st st1 key p H).
  - intros H outcome. apply settle_clears. exact H.
  - intros t _ H. apply renew_after_add. exact H.
Qed.

(** *** Sample runs *)

(** A manager constructed over a stored id token, and the state after
    [renew("idToken")] has started a renewal. *)
Definition started : State :=
  constructor 100 sample_options [("idToken", sample_id 1000)] false.

Definition renewing : State := snd (renew sample_imports "idToken" started).

(** While that renewal is in flight the token is added again. *)
Definition readded : State :=
  snd (add sample_imports "idToken" (Some (sample_id 2000)) renewing).

Lemma renew_deduplicated_witness :
  renew sample_imports "idToken" renewing = (Normal (PromiseChain 0), renewing)
  /\ (exists r st',
        settle sample_imports 0 (inr (Some (sample_id 2000))) renewing = Some (r, st')
        /\ JsObj.get (renewPromise st') "idToken" = None)
  /\ (exists st2 request,
        renew sample_imports "idToken" readded = (Normal (PromiseChain 1), st2)
        /\ requests st2 = [Renew (sample_id 1000)] ++ [request]).
Proof.
  split; [|split].
  - apply (proj1 (proj2 (renew_deduplicated sample_imports started "idToken" 0%nat))).
    reflexivity.
  - apply (proj1 (proj2 (proj2
             (renew_deduplicated sample_imports renewing "idToken" 0%nat)))).
    reflexivity.
  - destruct (proj2 (proj2 (proj2
                (renew_deduplicated sample_imports renewing "idToken" 0%nat)))
                (sample_id 2000) eq_refl
                (proj1 (invalidToken_wellformed sample_imports (Some (sample_id 2000)))
                       eq_refl))
      as (_ & _ & _ & st2 & request & Hrun & Hreq & _).
    exists st2, request. split; [exact Hrun | exact Hreq].
Defined.

(** C4 as stated fails.  The first [renew("idToken")] starts chain 0.
    Then [add("idToken", ...)] resets the key's expiry timer, which drops the
    recorded promise while chain 0 is still in flight.  The second
    [renew("idToken")] starts chain 1 and a second request goes out. *)
Lemma renew_second_request_after_add :
  renew sample_imports "idToken" started = (Normal (PromiseChain 0), renewing)
  /\ lookup_inflight (inflight readded) 0 = Some "idToken"
  /\ fst (renew sample_imports "idToken" readded) = Normal (PromiseChain 1)
  /\ requests renewing = [Renew (sample_id 1000)]
  /\ requests (snd (renew sample_imports "idToken" readded))
     = [Renew (sample_id 1000); Renew (sample_id 2000)].
Proof. repeat split; reflexivity. Qed.

Definition expired_token : Token := sample_id 100.

Definition failing : State :=
  snd (renew sample_imports "idToken"
         (constructor 100 sample_options [("idToken", expired_token)] false)).

Definition oauth_error : Error := mkError "OAuthError" "invalid_grant" None.

Lemma renew_authorization_failure_witness :
  exists st',
    settle sample_imports 0 (inl oauth_error) failing
      = Some (Thrown (mkError "OAuthError" "invalid_grant" (Some "idToken")), st')
    /\ tokenStorage st' = []
    /\ emitter st' = [EVENT_REMOVED "idToken" (Some expired_token);
                      EVENT_ERROR (mkError "OAuthError" "invalid_grant" (Some "idToken"))].
Proof.
  destruct (renew_authorization_failure sample_imports failing 0 "idToken" oauth_error
              eq_refl eq_refl) as (st' & Hsettle & Hexpired & _).
  exists st'. split; [exact Hsettle|].
  exact (Hexpired expired_token eq_refl eq_refl).
Defined.

Definition busy_history : list Z := [0; 1000; 2000; 3000; 4000; 5000; 6000; 7000; 8000].

(** Nine expired-token events for the id token, one second apart. *)
Definition busy : State :=
  snd (expireAll sample_imports (map (fun t => (t, "idToken")) busy_history) started).

Definition calm_history : list Z := [0; 40000; 80001].

Definition calm : State :=
  snd (expireAll sample_imports (map (fun t => (t, "idToken")) calm_history) started).

Lemma throttle_window_witness :
  (emitter (snd (onTokenExpiredHandler sample_imports 9000 "idToken" busy))
     = [EVENT_ERROR (mkError "AuthSdkError" throttle_message None)]
   /\ requests (snd (onTokenExpiredHandler sample_imports 9000 "idToken" busy))
      = [Renew (sample_id 1000)])
  /\ fst (shouldThrottleRenew (renewTimeQueue calm) 120002) = false.
Proof.
  split.
  - destruct (throttle_window sample_imports busy busy_history 9000 "idToken"
                eq_refl eq_refl) as (Hthrottled & _ & _).
    destruct (Hthrottled 0) as (Hst & Hreq & _).
    + cbn. lia.
    + reflexivity.
    + lia.
    + split; [rewrite Hst; reflexivity | exact Hreq].
  - destruct (throttle_window sample_imports calm calm_history 120002 "idToken"
                eq_refl eq_refl) as (_ & Hspaced & _).
    apply Hspaced. cbn. lia.
Defined.

(** *** [setTokens] *)

Ltac exec_set :=
  unfold notify, handleAdded, handleRemoved, callback, setExpireEventTimeout,
    clearExpireEventTimeout, clearTimeout, setTimeout, emitAdded, emitRemoved, emit,
    getTokens, getKeyByType, getStorage, setStorage, validateToken,
    when, bind, gets, modify, ret, throw;
  cbn -[cancel fold_left filter invalidToken expireEventWait delay key_or spread].

Section SetTokens.

Variable imp : Imports.

(** The events [setTokens] emits for one kind: for a token in the bag,
    one ['added'] with the kind's key and that token; for a kind left out
    of the bag, nothing or one ['removed']. *)
Definition segment (key : string) (token : option Token) (events : list Event) : Prop :=
  match token with
  | Some t => events = [EVENT_ADDED key t]
  | None => events = [] \/ exists old, events = [EVENT_REMOVED key (Some old)]
  end.

(** The key [setTokens] uses for a kind: where storage holds a token of
    the kind, else the default key. *)
Definition keyOf (st : State) (type : TokenType) : string :=
  key_or (match getKeyByType imp type st with
          | (Normal k, _) => k
          | (Thrown _, _) => None
          end)
         (match type with
          | idTokenType => ID_TOKEN_STORAGE_KEY imp
          | accessTokenType => ACCESS_TOKEN_STORAGE_KEY imp
          | refreshTokenType => REFRESH_TOKEN_STORAGE_KEY imp
          end).

Lemma notify_events (type : TokenType) (key : string) (token existing : option Token)
    (tokenCb : bool) (s : State) :
  exists s' events,
    notify type key token existing tokenCb s = (Normal tt, s')
    /\ emitter s' = emitter s ++ events
    /\ segment key token events.
Proof.
  destruct s. exec_set.
  destruct token as [t|]; [|destruct existing as [old|]];
    cbn -[cancel expireEventWait delay].
  - destruct (JsObj.get expireTimeouts0 key), tokenCb; cbn -[cancel expireEventWait delay];
      do 2 eexists; (split; [reflexivity|]); cbn; split; reflexivity.
  - destruct (JsObj.get expireTimeouts0 key), tokenCb; cbn -[cancel];
      do 2 eexists; (split; [reflexivity|]); cbn; (split; [reflexivity|]); right; eauto.
  - exists (mkState clock_now0 options0 emitter0 expireTimeouts0 renewPromise0 tokenStorage0
              timers0 nextTimer0 requests0 inflight0 nextPromise0 renewTimeQueue0
              callbackLog0 console0 isLocalhost0), [].
    cbn. rewrite app_nil_r. auto.
Qed.

(** C2 (as the code has it).  When the id and access tokens of the bag
    pass validation, [setTokens] completes and what it emits is, in the
    order id, access, refresh, one segment per kind: exactly one ['added']
    for a kind that is in the bag, whether or not the value stored for it
    changes, and no ['added'] and at most one ['removed'] for a kind that
    is not. *)
Theorem setTokens_events (st : State) (tokens : Tokens)
    (accessTokenCb idTokenCb refreshTokenCb : bool) :
  (forall t, tokens_idToken tokens = Some t -> ~ malformed imp (Some t)) ->
  (forall t, tokens_accessToken tokens = Some t -> ~ malformed imp (Some t)) ->
  exists st' forId forAccess forRefresh,
    setTokens imp tokens accessTokenCb idTokenCb refreshTokenCb st = (Normal tt, st')
    /\ emitter st' = emitter st ++ forId ++ forAccess ++ forRefresh
    /\ segment (keyOf st idTokenType) (tokens_idToken tokens) forId
    /\ segment (keyOf st accessTokenType) (tokens_accessToken tokens) forAccess
    /\ segment (keyOf st refreshTokenType) (tokens_refreshToken tokens) forRefresh.
Proof.
  intros Hid Haccess.
  assert (Hid' : when (Js.truthy_object (tokens_idToken tokens))
                   (validateToken imp (tokens_idToken tokens)) st = (Normal tt, st)).
  { destruct (tokens_idToken tokens) as [t|]; [|reflexivity].
    cbn. unfold validateToken.
    now rewrite (proj2 (invalidToken_wellformed imp (Some t)) (Hid t eq_refl)). }
  assert (Hacc' : when (Js.truthy_object (tokens_accessToken tokens))
                    (validateToken imp (tokens_accessToken tokens)) st = (Normal tt, st)).
  { destruct (tokens_accessToken tokens) as [t|]; [|reflexivity].
    cbn. unfold validateToken.
    now rewrite (proj2 (invalidToken_wellformed imp (Some t)) (Haccess t eq_refl)). }
  unfold setTokens.
  unfold bind at 1. rewrite Hid'. unfold bind at 1. rewrite Hacc'.
  unfold bind at 1. unfold getKeyByType at 1, bind at 1, getStorage at 1, gets at 1, ret at 1.
  unfold bind at 1. unfold getKeyByType at 1, bind at 1, getStorage at 1, gets at 1, ret at 1.
  unfold bind at 1. unfold getKeyByType at 1, bind at 1, getStorage at 1, gets at 1, ret at 1.
  fold (keyOf st idTokenType).
  change (key_or _ (ID_TOKEN_STORAGE_KEY imp)) with (keyOf st idTokenType).
  change (key_or _ (ACCESS_TOKEN_STORAGE_KEY imp)) with (keyOf st accessTokenType).
  change (key_or _ (REFRESH_TOKEN_STORAGE_KEY imp)) with (keyOf st refreshTokenType).
  set (written := spread _ _ _).
  unfold bind at 1, setStorage at 1, modify at 1.
  set (s0 := with_tokenStorage _ st).
  assert (Hs0 : emitter s0 = emitter st) by (subst s0; destruct st; reflexivity).
  unfold bind at 1, getTokens at 1, bind at 1, getStorage at 1, gets at 1, ret at 1.
  set (existingTokens := fold_left _ _ _).
  destruct (notify_events idTokenType (keyOf st idTokenType) (tokens_idToken tokens)
              (tokens_idToken existingTokens) idTokenCb s0)
    as (s1 & e1 & Hn1 & He1 & Hseg1).
  destruct (notify_events accessTokenType (keyOf st accessTokenType)
              (tokens_accessToken tokens) (tokens_accessToken existingTokens)
              accessTokenCb s1)
    as (s2 & e2 & Hn2 & He2 & Hseg2).
  destruct (notify_events refreshTokenType (keyOf st refreshTokenType)
              (tokens_refreshToken tokens) (tokens_refreshToken existingTokens)
              refreshTokenCb s2)
    as (s3 & e3 & Hn3 & He3 & Hseg3).
  exists s3, e1, e2, e3.
  unfold bind. rewrite Hn1, Hn2, Hn3.
  repeat split; try assumption.
  rewrite He3, He2, He1, Hs0, <- !app_assoc. reflexivity.
Qed.

End SetTokens.

Definition both_tokens : Tokens :=
  mkTokens (Some (sample_access 1000)) (Some (sample_id 1000)) None.

Definition access_only : Tokens := mkTokens (Some (sample_access 1000)) None None.

(** A manager in which [setTokens({idToken, accessToken})] has run. *)
Definition both_stored : State :=
  snd (setTokens sample_imports both_tokens false false false
         (constructor 100 sample_options [] false)).

Lemma setTokens_events_witness :
  exists st' forId forRefresh,
    setTokens sample_imports access_only false false false both_stored = (Normal tt, st')
    /\ emitter st' = emitter both_stored ++ forId
                       ++ [EVENT_ADDED "accessToken" (sample_access 1000)] ++ forRefresh.
Proof.
  destruct (setTokens_events sample_imports both_stored access_only false false false)
    as (st' & forId & forAccess & forRefresh & Hrun & Hemit & _ & Haccess & _).
  - intros t [=].
  - intros t [= <-]. cbn. intros [H|[H|(_ & H & _)]]; discriminate H.
  - exists st', forId, forRefresh. split; [exact Hrun|].
    cbn in Haccess. rewrite <- Haccess. exact Hemit.
Defined.

(** C2 as stated fails.  After [setTokens({idToken, accessToken})], the
    call [setTokens({accessToken})] with the same access token emits no
    ['removed'] for the id token, which was stored before the call and is
    not stored after it, and emits ['added'] for the access token, whose
    stored value the call does not change. *)
Lemma setTokens_no_removed_but_added :
  let after := snd (setTokens sample_imports access_only false false false both_stored) in
  tokenStorage both_stored
    = [("idToken", sample_id 1000); ("accessToken", sample_access 1000)]
  /\ tokenStorage after = [("accessToken", sample_access 1000)]
  /\ emitter after
     = emitter both_stored ++ [EVENT_ADDED "accessToken" (sample_access 1000)].
Proof. repeat split; reflexivity. Qed.

(** *** Cross-tab synchronisation *)

(** Two states show the same clock, options, events and storage. *)
Definition same_view (s s' : State) : Prop :=
  clock_now s' = clock_now s /\ options s' = options s
  /\ emitter s' = emitter s /\ tokenStorage s' = tokenStorage s.

Lemma same_view_refl (s : State) : same_view s s.
Proof. repeat split. Qed.

Lemma same_view_trans (s1 s2 s3 : State) :
  same_view s1 s2 -> same_view s2 s3 -> same_view s1 s3.
Proof.
  intros (A1 & A2 & A3 & A4) (B1 & B2 & B3 & B4).
  repeat split; congruence.
Qed.

Lemma expireEventWait_same_view (s s' : State) (t : Token) :
  same_view s s' -> expireEventWait s' t = expireEventWait s t.
Proof.
  intros (Hc & Ho & _). unfold expireEventWait, getExpireTime. now rewrite Hc, Ho.
Qed.

Lemma In_cancel (id : nat) (pending : list Timer) (tm : Timer) :
  In tm (cancel id pending) <-> In tm pending /\ timer_id tm <> id.
Proof.
  unfold cancel. rewrite filter_In.
  destruct (Nat.eqb_spec (timer_id tm) id); cbn; intuition congruence.
Qed.

Section CrossTab.

Variable imp : Imports.

(** One [clearExpireEventTimeout]. *)
Lemma clearExpireEventTimeout_spec (key : string) (s : State) :
  exists s',
    clearExpireEventTimeout key s = (Normal tt, s')
    /\ same_view s s'
    /\ nextTimer s' = nextTimer s
    /\ expireTimeouts s' = JsObj.delete (expireTimeouts s) key
    /\ timers s' = match JsObj.get (expireTimeouts s) key with
                   | Some old => cancel old (timers s)
                   | None => timers s
                   end.
Proof.
  destruct s. unfold clearExpireEventTimeout, clearTimeout, bind, gets, modify, ret.
  cbn -[cancel]. destruct (JsObj.get expireTimeouts0 key); cbn -[cancel];
    eexists; repeat split.
Qed.

(** The loop of [clearExpireEventTimeoutAll] over the keys [ks]. *)
Lemma clear_loop_spec (ks : list string) (s : State) :
  exists s',
    forEach ks clearExpireEventTimeout s = (Normal tt, s')
    /\ same_view s s'
    /\ nextTimer s' = nextTimer s
    /\ (forall tm, In tm (timers s') -> In tm (timers s))
    /\ (forall k, In k ks \/ JsObj.get (expireTimeouts s) k = None ->
                  JsObj.get (expireTimeouts s') k = None)
    /\ (forall k old, In k ks -> JsObj.get (expireTimeouts s) k = Some old ->
                      forall tm, In tm (timers s') -> timer_id tm <> old).
Proof.
  revert s. induction ks as [|k0 ks IH]; intros s.
  - exists s. split; [reflexivity|]. split; [apply same_view_refl|].
    split; [reflexivity|]. split; [auto|]. split.
    + intros k [[]|H]. exact H.
    + intros k old [].
  - destruct (clearExpireEventTimeout_spec k0 s) as (s1 & Hrun1 & Hview1 & Hnext1 & Hexp1 & Htim1).
    destruct (IH s1) as (s' & Hrun & Hview & Hnext & Hsub & Hnone & Hgone).
    exists s'. cbn [forEach]. unfold bind. rewrite Hrun1, Hrun.
    assert (Hsub1 : forall tm, In tm (timers s1) -> In tm (timers s)).
    { intros tm. rewrite Htim1. destruct (JsObj.get (expireTimeouts s) k0); auto.
      rewrite In_cancel. tauto. }
    split; [reflexivity|]. split; [eapply same_view_trans; eauto|].
    split; [congruence|]. split; [auto|]. split.
    + intros k Hk. apply Hnone. rewrite Hexp1.
      destruct (string_dec k0 k) as [->|Hne].
      * right. apply JsObjFacts.get_delete_same.
      * rewrite JsObjFacts.get_delete_other by exact Hne.
        destruct Hk as [[E|Hin]|Hk]; [contradiction | now left | now right].
    + intros k old Hk Hget tm Htm.
      destruct (string_dec k0 k) as [->|Hne].
      * apply Hsub in Htm. rewrite Htim1, Hget in Htm. apply In_cancel in Htm. tauto.
      * destruct Hk as [E|Hin]; [contradiction|].
        apply (Hgone k old Hin); [|exact Htm].
        rewrite Hexp1, JsObjFacts.get_delete_other by exact Hne. exact Hget.
Qed.

(** One [setExpireEventTimeout]. *)
Lemma setExpireEventTimeout_spec (key : string) (token : Token) (s : State) :
  exists s',
    setExpireEventTimeout key token s = (Normal tt, s')
    /\ same_view s s'
    /\ nextTimer s' = S (nextTimer s)
    /\ expireTimeouts s' = JsObj.set (JsObj.delete (expireTimeouts s) key) key (nextTimer s)
    /\ timers s' = match JsObj.get (expireTimeouts s) key with
                   | Some old => cancel old (timers s)
                   | None => timers s
                   end ++ [mkTimer (nextTimer s) (delay (expireEventWait s token))
                                   (EmitExpired key token)].
Proof.
  destruct s.
  unfold setExpireEventTimeout, clearExpireEventTimeout, clearTimeout, setTimeout,
    bind, gets, modify, ret.
  cbn -[cancel expireEventWait delay].
  destruct (JsObj.get expireTimeouts0 key); cbn -[cancel expireEventWait delay];
    eexists; repeat split.
Qed.

(** Timer identifiers recorded in [expireTimeouts] are below the next
    identifier, and no identifier is recorded for two keys. *)
Definition ids_fresh (s : State) : Prop :=
  (forall k id, JsObj.get (expireTimeouts s) k = Some id -> (id < nextTimer s)%nat)
  /\ (forall k1 k2 id, JsObj.get (expireTimeouts s) k1 = Some id ->
                       JsObj.get (expireTimeouts s) k2 = Some id -> k1 = k2).

(** The body of the loop of [setExpireEventTimeoutAll]. *)
Definition schedule (storage : JsObj.t Token) (key : string) : M unit :=
  match JsObj.get storage key with
  | Some token => setExpireEventTimeout key token
  | None => ret tt
  end.

Lemma get_after_schedule (o : JsObj.t nat) (k0 k : string) (id : nat) :
  JsObj.get (JsObj.set (JsObj.delete o k0) k0 id) k
  = if string_dec k0 k then Some id else JsObj.get o k.
Proof.
  destruct (string_dec k0 k) as [->|Hne].
  - apply JsObjFacts.get_set_same.
  - rewrite JsObjFacts.get_set_other, JsObjFacts.get_delete_other by exact Hne.
    reflexivity.
Qed.

Lemma schedule_spec (storage : JsObj.t Token) (k0 : string) (s : State) :
  ids_fresh s ->
  exists s',
    schedule storage k0 s = (Normal tt, s')
    /\ same_view s s'
    /\ (nextTimer s <= nextTimer s')%nat
    /\ ids_fresh s'
    /\ (forall k, k <> k0 -> JsObj.get (expireTimeouts s') k = JsObj.get (expireTimeouts s) k)
    /\ (forall k id tm, k <> k0 -> JsObj.get (expireTimeouts s) k = Some id ->
                        In tm (timers s) -> timer_id tm = id -> In tm (timers s'))
    /\ (forall tm, In tm (timers s') -> In tm (timers s) \/ (nextTimer s <= timer_id tm)%nat)
    /\ (forall t, JsObj.get storage k0 = Some t ->
          JsObj.get (expireTimeouts s') k0 = Some (nextTimer s)
          /\ In (mkTimer (nextTimer s) (delay (expireEventWait s t)) (EmitExpired k0 t))
                (timers s')).
Proof.
  intros (Hlt & Hinj). unfold schedule.
  destruct (JsObj.get storage k0) as [t0|] eqn:Hsto.
  - destruct (setExpireEventTimeout_spec k0 t0 s) as (s' & Hrun & Hview & Hnext & Hexp & Htim).
    exists s'. split; [exact Hrun|]. split; [exact Hview|]. split; [lia|].
    split; [|split; [|split; [|split]]].
    + split.
      * intros k id. rewrite Hexp, get_after_schedule, Hnext.
        destruct (string_dec k0 k); [intros [= <-]; lia | intros H; apply Hlt in H; lia].
      * intros k1 k2 id. rewrite Hexp, !get_after_schedule.
        destruct (string_dec k0 k1) as [<-|N1], (string_dec k0 k2) as [<-|N2]; auto.
        -- intros [= <-] H. apply Hlt in H. lia.
        -- intros H [= <-]. apply Hlt in H. lia.
        -- apply Hinj.
    + intros k Hne. rewrite Hexp, get_after_schedule.
      destruct (string_dec k0 k); congruence.
    + intros k id tm Hne Hget Hin Hid. rewrite Htim. apply in_or_app. left.
      destruct (JsObj.get (expireTimeouts s) k0) as [old|] eqn:Hold; [|exact Hin].
      apply In_cancel. split; [exact Hin|].
      intros E. apply Hne. apply (Hinj k k0 id); congruence.
    + intros tm. rewrite Htim. intros Hin. apply in_app_or in Hin.
      destruct Hin as [Hin|[<-|[]]]; [left | right; cbn; lia].
      destruct (JsObj.get (expireTimeouts s) k0); [apply In_cancel in Hin; tauto | exact Hin].
    + intros t [= <-]. split.
      * rewrite Hexp. apply JsObjFacts.get_set_same.
      * rewrite Htim. apply in_or_app. right. now left.
  - exists s. split; [reflexivity|]. split; [apply same_view_refl|]. split; [lia|].
    split; [split; assumption|]. split; [reflexivity|]. split; [auto|]. split; [auto|].
    discriminate.
Qed.

(** The loop of [setExpireEventTimeoutAll] over the keys [ks]. *)
Lemma schedule_loop_spec (storage : JsObj.t Token) (ks : list string) (s : State) :
  ids_fresh s ->
  exists s',
    forEach ks (schedule storage) s = (Normal tt, s')
    /\ same_view s s'
    /\ (nextTimer s <= nextTimer s')%nat
    /\ ids_fresh s'
    /\ (forall k, ~ In k ks -> JsObj.get (expireTimeouts s') k = JsObj.get (expireTimeouts s) k)
    /\ (forall k id tm, ~ In k ks -> JsObj.get (expireTimeouts s) k = Some id ->
                        In tm (timers s) -> timer_id tm = id -> In tm (timers s'))
    /\ (forall tm, In tm (timers s') -> In tm (timers s) \/ (nextTimer s <= timer_id tm)%nat)
    /\ (forall k t, In k ks -> JsObj.get storage k = Some t ->
          exists id,
            JsObj.get (expireTimeouts s') k = Some id
            /\ In (mkTimer id (delay (expireEventWait s t)) (EmitExpired k t)) (timers s')).
Proof.
  revert s. induction ks as [|k0 ks IH]; intros s Hfresh.
  - exists s. split; [reflexivity|]. split; [apply same_view_refl|]. split; [lia|].
    split; [exact Hfresh|]. split; [reflexivity|]. split; [auto|]. split; [auto|].
    intros k t [].
  - destruct (schedule_spec storage k0 s Hfresh)
      as (s1 & Hrun1 & Hview1 & Hle1 & Hfresh1 & Hoth1 & Hkeep1 & Hnew1 & Hset1).
    destruct (IH s1 Hfresh1)
      as (s' & Hrun & Hview & Hle & Hfresh' & Hoth & Hkeep & Hnew & Hset).
    exists s'. cbn [forEach]. unfold bind. rewrite Hrun1, Hrun.
    split; [reflexivity|]. split; [eapply same_view_trans; eauto|]. split; [lia|].
    split; [exact Hfresh'|]. split; [|split; [|split]].
    + intros k Hk. rewrite Hoth, Hoth1; auto; intros E; apply Hk; [left; congruence | now right].
    + intros k id tm Hk Hget Hin Hid.
      assert (Hne : k <> k0) by (intros E; apply Hk; left; congruence).
      apply (Hkeep k id tm); auto.
      * intros E. apply Hk. now right.
      * rewrite Hoth1; auto.
      * apply (Hkeep1 k id tm); auto.
    + intros tm Hin. apply Hnew in Hin. destruct Hin as [Hin|Hge]; [|right; lia].
      apply Hnew1 in Hin. tauto.
    + intros k t Hk Hget.
      destruct (in_dec string_dec k ks) as [Hin|Hnin].
      * destruct (Hset k t Hin Hget) as (id & Hid & Htm).
        exists id. split; [exact Hid|].
        now rewrite <- (expireEventWait_same_view s s1 t Hview1).
      * destruct Hk as [->|Hk]; [|contradiction].
        destruct (Hset1 t Hget) as (Hid & Htm).
        exists (nextTimer s). split.
        -- rewrite Hoth by exact Hnin. exact Hid.
        -- apply (Hkeep k (nextTimer s) _ Hnin Hid Htm). reflexivity.
Qed.

End CrossTab.

Section Listener.

Variable imp : Imports.

(** The events of the diff between the old and the new serialized value:
    ['added'] for every key of the new value whose serialization differs
    from the old one, then ['removed'] for every key of the old value that
    the new value lacks. *)
Definition crossTabEvents (newValue oldValue : option string) : list Event :=
  let oldTokens := getTokensFromStorageValue imp oldValue in
  let newTokens := getTokensFromStorageValue imp newValue in
  flat_map (fun key =>
    match JsObj.get newTokens key with
    | Some t =>
        if Js.strict_neq (option_map (JSON_stringify imp) (JsObj.get oldTokens key))
                         (Some (JSON_stringify imp t))
        then [EVENT_ADDED key t] else []
    | None => []
    end) (JsObj.keys newTokens)
  ++ flat_map (fun key =>
    match JsObj.get newTokens key with
    | Some _ => []
    | None => [EVENT_REMOVED key (JsObj.get oldTokens key)]
    end) (JsObj.keys oldTokens).

Lemma with_emitter_nil (s : State) : with_emitter (fun l => l ++ []) s = s.
Proof. destruct s. cbn. now rewrite app_nil_r. Qed.

Lemma with_emitter_app (s : State) (e1 e2 : list Event) :
  with_emitter (fun l => l ++ e2) (with_emitter (fun l => l ++ e1) s)
  = with_emitter (fun l => l ++ e1 ++ e2) s.
Proof. destruct s. cbn. now rewrite app_assoc. Qed.

(** A loop whose body only emits. *)
Lemma forEach_emits {A} (xs : list A) (body : A -> M unit) (events : A -> list Event) :
  (forall x s, body x s = (Normal tt, with_emitter (fun l => l ++ events x) s)) ->
  forall s,
    forEach xs body s = (Normal tt, with_emitter (fun l => l ++ flat_map events xs) s).
Proof.
  intros Hbody. induction xs as [|x xs IH]; intros s; cbn [forEach flat_map].
  - unfold ret. now rewrite with_emitter_nil.
  - unfold bind. rewrite Hbody, IH, with_emitter_app. reflexivity.
Qed.

Lemma emitEventsForCrossTabsStorageUpdate_spec (newValue oldValue : option string) (s : State) :
  emitEventsForCrossTabsStorageUpdate imp newValue oldValue s
  = (Normal tt, with_emitter (fun l => l ++ crossTabEvents newValue oldValue) s).
Proof.
  unfold emitEventsForCrossTabsStorageUpdate, crossTabEvents.
  set (oldTokens := getTokensFromStorageValue imp oldValue).
  set (newTokens := getTokensFromStorageValue imp newValue).
  unfold bind at 1.
  rewrite (forEach_emits (JsObj.keys newTokens) _
             (fun key =>
                match JsObj.get newTokens key with
                | Some t =>
                    if Js.strict_neq
                         (option_map (JSON_stringify imp) (JsObj.get oldTokens key))
                         (Some (JSON_stringify imp t))
                    then [EVENT_ADDED key t] else []
                | None => []
                end)).
  - rewrite (forEach_emits (JsObj.keys oldTokens) _
               (fun key =>
                  match JsObj.get newTokens key with
                  | Some _ => []
                  | None => [EVENT_REMOVED key (JsObj.get oldTokens key)]
                  end)).
    + now rewrite with_emitter_app.
    + intros key s0. destruct (JsObj.get newTokens key); cbn.
      * unfold ret. now rewrite with_emitter_nil.
      * reflexivity.
  - intros key s0. destruct (JsObj.get newTokens key) as [t|]; cbn.
    + destruct (Js.strict_neq _ _); cbn.
      * reflexivity.
      * unfold ret. now rewrite with_emitter_nil.
    + unfold ret. now rewrite with_emitter_nil.
Qed.

(** The timers after [resetExpireEventTimeoutAll]: every timer recorded
    before is cancelled, and every stored token has a newly computed one. *)
Lemma resetExpireEventTimeoutAll_spec (s : State) :
  exists s',
    resetExpireEventTimeoutAll s = (Normal tt, s')
    /\ same_view s s'
    /\ (forall k old,
          JsObj.get (expireTimeouts s) k = Some old -> (old < nextTimer s)%nat ->
          forall tm, In tm (timers s') -> timer_id tm <> old)
    /\ (forall k t,
          JsObj.get (tokenStorage s) k = Some t ->
          exists id,
            JsObj.get (expireTimeouts s') k = Some id
            /\ In (mkTimer id (delay (expireEventWait s t)) (EmitExpired k t)) (timers s'))
    /\ (forall k, JsObj.get (tokenStorage s) k = None ->
                  JsObj.get (expireTimeouts s') k = None).
Proof.
  unfold resetExpireEventTimeoutAll, clearExpireEventTimeoutAll, setExpireEventTimeoutAll.
  destruct (clear_loop_spec (JsObj.keys (expireTimeouts s)) s)
    as (s1 & Hrun1 & Hview1 & Hnext1 & Hsub1 & Hnone1 & Hgone1).
  assert (Hempty : forall k, JsObj.get (expireTimeouts s1) k = None).
  { intros k. apply Hnone1.
    destruct (JsObj.get (expireTimeouts s) k) eqn:E; [left | now right].
    eapply JsObjFacts.get_In_keys; eauto. }
  assert (Hfresh1 : ids_fresh s1).
  { split; intros; rewrite Hempty in *; discriminate. }
  destruct (schedule_loop_spec (tokenStorage s1) (JsObj.keys (tokenStorage s1)) s1 Hfresh1)
    as (s' & Hrun & Hview & Hle & _ & Hoth & _ & Hnew & Hset).
  assert (Hsto : tokenStorage s1 = tokenStorage s) by apply Hview1.
  exists s'. split; [|split; [|split; [|split]]].
  - unfold bind at 1, gets at 1. unfold bind at 1. rewrite Hrun1.
    unfold bind, try_catch, getStorage, gets, ret. cbn.
    exact Hrun.
  - eapply same_view_trans; eauto.
  - intros k old Hget Hlt tm Htm.
    apply Hnew in Htm. destruct Htm as [Htm|Hge]; [|lia].
    apply (Hgone1 k old); auto. eapply JsObjFacts.get_In_keys; eauto.
  - intros k t Hget. rewrite <- Hsto in Hget.
    destruct (Hset k t) as (id & Hid & Htm); auto.
    { eapply JsObjFacts.get_In_keys; eauto. }
    exists id. split; [exact Hid|].
    now rewrite <- (expireEventWait_same_view s s1 t Hview1).
  - intros k Hget. rewrite <- Hsto in Hget.
    rewrite Hoth; [apply Hempty|].
    intros Hin. apply JsObjFacts.In_keys_get in Hin. destruct Hin as (v & Hv). congruence.
Qed.

(** C10.  For a storage event whose key is [null]: (1) the listener does
    not skip it, whatever the old and new values: it schedules the change
    handler after the configured delay; (2) when that handler runs, every
    expiry timer recorded before (under an identifier already handed out)
    is cancelled, every stored token gets a newly computed timer, [expireTimeouts] has entries for the stored keys
    only, and the events of the diff between old and new value are emitted;
    (3) an event is skipped only if its key is a non-empty string, and then
    because the key is not the storage key or old and new value are equal. *)
Theorem storage_cleared_never_skipped (st : State) (ev : StorageEvent) :
  key ev = None ->
  skipStorageEvent (options st) ev = false
  /\ onStorage ev st
     = (Normal tt,
        with_nextTimer S
          (with_timers
             (fun l => l ++ [mkTimer (nextTimer st) (_storageEventDelay (options st))
                               (HandleCrossTabsStorageChange (newValue ev) (oldValue ev))])
             st))
  /\ (forall dateNow s,
      exists s',
        runTask imp dateNow (HandleCrossTabsStorageChange (newValue ev) (oldValue ev)) s
          = (Normal tt, s')
        /\ (forall k old,
              JsObj.get (expireTimeouts s) k = Some old -> (old < nextTimer s)%nat ->
              forall tm, In tm (timers s') -> timer_id tm <> old)
        /\ (forall k t,
              JsObj.get (tokenStorage s) k = Some t ->
              exists id,
                JsObj.get (expireTimeouts s') k = Some id
                /\ In (mkTimer id (delay (expireEventWait s t)) (EmitExpired k t))
                      (timers s'))
        /\ (forall k, JsObj.get (tokenStorage s) k = None ->
                      JsObj.get (expireTimeouts s') k = None)
        /\ emitter s' = emitter s ++ crossTabEvents (newValue ev) (oldValue ev))
  /\ (forall ev' : StorageEvent,
        skipStorageEvent (options st) ev' = true ->
        exists k,
          key ev' = Some k /\ k <> ""
          /\ (k <> storageKey (options st) \/ newValue ev' = oldValue ev')).
Proof.
  intros Hkey.
  assert (Hskip : skipStorageEvent (options st) ev = false).
  { unfold skipStorageEvent. now rewrite Hkey. }
  split; [exact Hskip|]. split; [|split].
  - unfold onStorage, bind, gets. rewrite Hskip. unfold setTimeout, ret. reflexivity.
  - intros dateNow s. cbn [runTask]. unfold handleCrossTabsStorageChange.
    destruct (resetExpireEventTimeoutAll_spec s)
      as (s1 & Hrun & Hview & Hgone & Hset & Honly).
    exists (with_emitter (fun l => l ++ crossTabEvents (newValue ev) (oldValue ev)) s1).
    unfold bind. rewrite Hrun, emitEventsForCrossTabsStorageUpdate_spec.
    split; [reflexivity|].
    destruct Hview as (_ & _ & Hemit & _).
    destruct s1. cbn in *. rewrite Hemit. auto.
  - intros ev'. unfold skipStorageEvent.
    destruct (key ev') as [k|]; cbn; [|discriminate].
    destruct (String.eqb_spec k ""); cbn; [discriminate|].
    intros H. exists k. split; [reflexivity|]. split; [assumption|].
    apply orb_true_iff in H. destruct H as [H|H].
    + left. destruct (String.eqb_spec k (storageKey (options st))); [discriminate | assumption].
    + right. destruct (newValue ev') as [a|], (oldValue ev') as [b|]; cbn in H;
        try discriminate; try reflexivity.
      destruct (String.eqb_spec a b); [congruence | discriminate].
Qed.

End Listener.

Definition cleared : StorageEvent := mkStorageEvent None None None.

Lemma storage_cleared_never_skipped_witness :
  onStorage cleared both_stored
  = (Normal tt,
     with_nextTimer S
       (with_timers
          (fun l => l ++ [mkTimer (nextTimer both_stored) 0
                            (HandleCrossTabsStorageChange None None)])
          both_stored)).
Proof.
  exact (proj1 (proj2
    (storage_cleared_never_skipped sample_imports both_stored cleared eq_refl))).
Defined.

End TokenManagerProps.

(** ** The orchestrator *)

Module IdxProps.

Import Idx.

(** Sample collaborators: a saved transaction is resumed, introspection
    succeeds, [remediate] answers [resp], and the token endpoint answers
    with an empty bag. *)
Definition sample_meta : TransactionMeta :=
  mkTransactionMeta (Some "handle") (Some true) (Some "client") (Some "verifier")
                    None (Some "https://app/callback") (Some "urls") (Some ["openid"]).

Definition sample_response (code : option string) : IdxResponse :=
  mkIdxResponse [] [] code (mkRawIdxState (Some "state-handle")).

Definition sample_error (name : string) (msg : string) : Error := mkError name msg None.

Definition sample_client (resp : RemediationResponse) : Collaborators :=
  mkCollaborators
    (fun _ => Some sample_meta)
    (fun _ _ _ => inr (mkInteractResponse (Some "handle") (Some sample_meta)))
    (fun _ _ => inr (sample_response None))
    (fun _ _ _ => inr resp)
    (fun _ _ => inr (mkTokenResponse (Some (TokenManager.mkTokens None None None))))
    (fun _ => None)
    (sample_error "AuthSdkError")
    (sample_error "TypeError" "").

Definition sample_options (finished : bool) : RunOptions :=
  mkRunOptions (Some "authenticate") None None (Some ["identify"])
               (Some (mkFlowMonitor (inr finished))) None (Some true).

Definition terminal_and_canceled : RemediationResponse :=
  mkRemediationResponse None None true true None.

Definition terminal_with_code : RemediationResponse :=
  mkRemediationResponse (Some (sample_response (Some "code"))) None true false None.

Definition canceled_with_code : RemediationResponse :=
  mkRemediationResponse (Some (sample_response (Some "code"))) None false true None.

Definition code_only : RemediationResponse :=
  mkRemediationResponse (Some (sample_response (Some "code"))) None false false None.

Definition isExchange (c : Call) : bool :=
  match c with
  | ExchangeCodeForTokens _ _ _ => true
  | _ => false
  end.


Lemma In_log_inv (c d : Call) (l : list Call) : In c (l ++ [d]) -> In c l \/ c = d.
Proof.
  intros H. apply in_app_or in H. destruct H as [H|[H|[]]]; auto.
Qed.

Ltac case_run :=
  repeat match goal with
  | |- context [match ?x with _ => _ end] =>
      lazymatch x with
      | context [match _ with _ => _ end] => fail
      | _ => destruct x eqn:?; cbn in *
      end
  | |- context [if ?x then _ else _] =>
      lazymatch x with
      | context [match _ with _ => _ end] => fail
      | context [if _ then _ else _] => fail
      | _ => destruct x eqn:?; cbn in *
      end
  end.




(** A canceled result is resolved before the interaction code is looked
    at: the monitor is not consulted and the status is [CANCELED]. *)
Example run_canceled_skips_monitor :
  run (sample_client canceled_with_code) (sample_options false)
  = (mkIdxTransaction (Some (sample_response None)) CANCELED None None None None None None None,
     [SetFlow "authenticate"; GetSavedTransactionMeta None;
      Introspect (Some true) (Some "handle") (inr (sample_response None));
      Remediate (inr canceled_with_code);
      Clear (Some true)]).
Proof. reflexivity. Qed.

(** C1.  [run] on a remediation result that has [terminal] set together
    with [canceled] returns [CANCELED]; on one that has [terminal] set
    together with an interaction code, under a finished flow, it exchanges
    the code and returns [SUCCESS].  The [if (canceled)] that follows the
    [terminal] block is not an [else if]. *)
Theorem run_terminal_overridden :
  tx_status (fst (run (sample_client terminal_and_canceled) (sample_options true)))
    = CANCELED
  /\ tx_status (fst (run (sample_client terminal_with_code) (sample_options true)))
    = SUCCESS
  /\ existsb isExchange
        (snd (run (sample_client terminal_with_code) (sample_options true))) = true.
Proof. repeat split; reflexivity. Qed.

(** With [terminal] alone the status is [TERMINAL] and shared storage is
    kept. *)
Example run_terminal_alone :
  let r := run (sample_client (mkRemediationResponse None None true false None))
               (sample_options true) in
  tx_status (fst r) = TERMINAL /\ In (Clear (Some false)) (snd r).
Proof. cbn. split; [reflexivity | tauto]. Qed.

End IdxProps.

(** ** The verify-authenticator step *)

Module VerifyAuthenticatorProps.

Import VerifyAuthenticator.

(** A value is supplied when it is present and not the empty string. *)
Definition supplied (v : option string) : Prop :=
  exists s, v = Some s /\ s <> "".

Lemma truthy_string_supplied (v : option string) :
  Js.truthy_string v = true <-> supplied v.
Proof.
  unfold supplied. destruct v as [s|]; cbn.
  - destruct (String.eqb_spec s ""); cbn; split.
    + discriminate.
    + intros (s' & [= <-] & Hne). contradiction.
    + eauto.
    + reflexivity.
  - split; [discriminate | intros (s & [=] & _)].
Qed.

(** C9.  With a password authenticator [canRemediate] holds exactly when a
    password is supplied; with any other authenticator it holds exactly
    when a verification code or an otp is supplied. *)
Theorem canRemediate_rule (this : Remediator) :
  (type (getAuthenticator this) = "password" ->
     (canRemediate this = true <-> supplied (password (values this))))
  /\ (type (getAuthenticator this) <> "password" ->
     (canRemediate this = true <->
        supplied (verificationCode (values this)) \/ supplied (otp (values this)))).
Proof.
  unfold canRemediate. split; intros Htype.
  - rewrite Htype. cbn. apply truthy_string_supplied.
  - destruct (String.eqb_spec (type (getAuthenticator this)) "password") as [E|_];
      [contradiction|].
    rewrite <- !truthy_string_supplied. unfold Js.or_string.
    destruct (Js.truthy_string (verificationCode (values this))) eqn:E.
    + rewrite E. tauto.
    + split; [tauto | intros [H|H]; [discriminate | exact H]].
Qed.

Definition password_step : Remediator :=
  mkRemediator (mkAuthenticator "password") (mkValues None (Some "hunter2") None).

Definition otp_step : Remediator :=
  mkRemediator (mkAuthenticator "app") (mkValues None None (Some "123456")).

Lemma canRemediate_rule_witness :
  canRemediate password_step = true /\ canRemediate otp_step = true.
Proof.
  split.
  - apply (proj1 (canRemediate_rule password_step)); [reflexivity|].
    exists "hunter2". split; [reflexivity | discriminate].
  - apply (proj2 (canRemediate_rule otp_step)); [discriminate|].
    right. exists "123456". split; [reflexivity | discriminate].
Defined.

(** An empty string does not count: the step is not satisfied by it. *)
Example canRemediate_empty_password :
  canRemediate (mkRemediator (mkAuthenticator "password") (mkValues None (Some "") None))
  = false.
Proof. reflexivity. Qed.

End VerifyAuthenticatorProps.


(** * Further code *)

(** ** The token manager: asynchronous reads, the host's timers, and the
    operations a manager goes through *)

Module TokenManagerHost.

Import TokenManager.

Definition with_clock_now (f : Z -> Z) (s : State) : State :=
  let 'mkState a b c d e g h i j k l m n o p := s in
  mkState (f a) b c d e g h i j k l m n o p.

(** What a promise made by [new Promise(executor)] settles with when the
    executor runs [body] and resolves with its value: a [throw] in the
    executor rejects the promise. *)
Definition promiseOf {A} (body : M A) : M (Error + A) :=
  try_catch (a <- body ;; ret (inr a)) (fun e => ret (inl e)).

Section Code.

Variable imp : Imports.

Definition getAsync (key : string) : M (Error + option Token) :=
  promiseOf (get key).

Definition getTokensAsync : M (Error + Tokens) :=
  promiseOf (getTokens imp).

(** The host fires the pending timer [id] at [Date.now() = dateNow]: the
    timer is no longer pending and its callback runs. *)
Definition fire (dateNow : Z) (id : nat) : M unit :=
  pending <- gets timers ;;
  match find (fun t => Nat.eqb (timer_id t) id) pending with
  | Some t =>
      modify (with_timers (cancel id)) ;;
      runTask imp dateNow (timer_task t)
  | None => ret tt
  end.

(** What can happen to a manager: a call of its interface, a settlement
    of a renewal by the transport, a storage event, a timer firing, the
    clock moving on. *)
Inductive Op :=
| OpAdd (key : string) (token : option Token)
| OpRemove (key : string)
| OpSetTokens (tokens : Tokens) (accessTokenCb idTokenCb refreshTokenCb : bool)
| OpRenew (key : string)
| OpSettle (p : nat) (outcome : Error + option Token)
| OpClear
| OpStorage (ev : StorageEvent)
| OpFire (dateNow : Z) (id : nat)
| OpClock (now : Z).

(** The state after [op]; an exception thrown by a call goes to the
    caller and the state is as the call left it. *)
Definition exec (op : Op) (s : State) : State :=
  match op with
  | OpAdd key token => snd (add imp key token s)
  | OpRemove key => snd (remove key s)
  | OpSetTokens tokens a i r => snd (setTokens imp tokens a i r s)
  | OpRenew key => snd (renew imp key s)
  | OpSettle p outcome =>
      match settle imp p outcome s with
      | Some (_, s') => s'
      | None => s
      end
  | OpClear => snd (clear s)
  | OpStorage ev => snd (onStorage ev s)
  | OpFire dateNow id => snd (fire dateNow id s)
  | OpClock t => with_clock_now (fun _ => t) s
  end.


End Code.

End TokenManagerHost.

(** ** Resuming a transaction ([lib/idx/proceed.ts],
    [lib/idx/flow/FlowSpecification.ts]) *)

Module Proceed.

Import Idx.

(** What these two files import beyond the collaborators of [run]: the
    three remediation flows, the monitors constructed for them, and the
    [flow] property of a saved transaction meta. *)
Record Flows := mkFlows {
  RegistrationFlow : list string;
  RegistrationFlowMonitor : FlowMonitor;
  PasswordRecoveryFlow : list string;
  PasswordRecoveryFlowMonitor : FlowMonitor;
  AuthenticationFlow : list string;
  AuthenticationFlowMonitor : FlowMonitor;
  meta_flow : TransactionMeta -> option string
}.

Record FlowSpecification := mkFlowSpecification {
  spec_flow : string;
  spec_remediators : list string;
  spec_flowMonitor : FlowMonitor;
  spec_actions : option (list string);
  spec_sso : bool
}.

Section Code.

Variable authClient : Collaborators.
Variable flows : Flows.

(** [getFlowSpecification(oktaAuth, flow = 'proceed')]; [None] is an
    argument that is [undefined]. *)
Definition getFlowSpecification (flow : option string) : FlowSpecification :=
  let flow := match flow with Some f => f | None => "proceed" end in
  if String.eqb flow "register" || String.eqb flow "signup"
     || String.eqb flow "enrollProfile" then
    mkFlowSpecification flow (RegistrationFlow flows) (RegistrationFlowMonitor flows)
                        None false
  else if String.eqb flow "recoverPassword" || String.eqb flow "resetPassword" then
    mkFlowSpecification flow (PasswordRecoveryFlow flows) (PasswordRecoveryFlowMonitor flows)
                        (Some ["currentAuthenticator-recover";
                               "currentAuthenticatorEnrollment-recover"])
                        false
  else
    (* authenticate *)
    mkFlowSpecification flow (AuthenticationFlow flows) (AuthenticationFlowMonitor flows)
                        None true.

(** [{ ...options, ...flowSpec }]: the five properties of the
    specification are own properties of it, [actions] also when it is
    [undefined], and replace those of the options. *)
Definition merge (options : RunOptions) (flowSpec : FlowSpecification) : RunOptions :=
  mkRunOptions (Some (spec_flow flowSpec)) (state options) (scopes options)
               (Some (spec_remediators flowSpec)) (Some (spec_flowMonitor flowSpec))
               (spec_actions flowSpec) (Some (spec_sso flowSpec)).

Definition canProceed (state : option string) : bool :=
  Js.truthy_object (getSavedTransactionMeta authClient state).

Definition unable_to_proceed : string :=
  "Unable to proceed: saved transaction could not be loaded".

(** [proceed(authClient, options)]: what its promise settles with and the
    collaborator calls made, its own load of the saved meta first. *)
Definition proceed (options : RunOptions) : (Error + IdxTransaction) * list Call :=
  let meta := getSavedTransactionMeta authClient (state options) in
  match meta with
  | None =>
      (* Proceed always needs saved transaction meta *)
      (inl (AuthSdkError authClient unable_to_proceed),
       [GetSavedTransactionMeta (state options)])
  | Some m =>
      (* Determine the flow specification based on the saved flow *)
      let flowSpec := getFlowSpecification (meta_flow flows m) in
      let (tx, calls) := run authClient (merge options flowSpec) in
      (inr tx, GetSavedTransactionMeta (state options) :: calls)
  end.

End Code.

End Proceed.

(** ** [VerifyAuthenticator], after a step has been taken *)

Module VerifyAuthenticatorAfter.

Import VerifyAuthenticator.

(** [getValuesAfterProceed()], on the values the inherited
    [getValuesAfterProceed()] returns. *)
Definition getValuesAfterProceed (this : Remediator) (superValues : VerifyAuthenticatorValues)
  : VerifyAuthenticatorValues :=
  let values := superValues in
  let challengeType := type (getAuthenticator this) in
  if String.eqb challengeType "password" then
    mkValues (verificationCode values) None (otp values)
  else
    mkValues None (password values) None.

End VerifyAuthenticatorAfter.

(** * Further properties *)

(** ** The token manager *)

Module TokenManagerHostProps.

Import TokenManager TokenManagerHost TokenManagerProps.

Ltac run_ops :=
  unfold getAsync, getTokensAsync, promiseOf, add, _add, remove, get, clear, validateToken,
    setExpireEventTimeout, clearExpireEventTimeout, clearTimeout, setTimeout,
    emitAdded, emitRemoved, emitError, emitRenewed, emitExpired, emit,
    getStorage, setStorage, clearStorage, warn, try_catch, when, bind, gets, modify,
    ret, throw;
  cbn -[invalidToken expireEventWait cancel delay].

Section Storage.

Variable imp : Imports.


(** X2.  For a key that names no member of [Object.prototype],
    [remove(key)] always completes.  Afterwards the key reads as absent and
    has neither a recorded timer nor a recorded renewal, the timer it had
    is no longer pending, the other keys read as before, and exactly one
    ['removed'] event was emitted: with the token that was stored, or
    without a token when the key held none. *)
Theorem remove_then_get (key : string) (st : State) :
  JsKey.ordinary key = true ->
  let st' := snd (remove key st) in
  fst (remove key st) = Normal tt
  /\ getAsync key st' = (Normal (inr None), st')
  /\ (forall other, other <> key ->
        JsObj.get (tokenStorage st') other = JsObj.get (tokenStorage st) other)
  /\ emitter st' = emitter st ++ [EVENT_REMOVED key (JsObj.get (tokenStorage st) key)]
  /\ JsObj.get (expireTimeouts st') key = None
  /\ JsObj.get (renewPromise st') key = None
  /\ (forall old, JsObj.get (expireTimeouts st) key = Some old ->
        forall tm, In tm (timers st') -> timer_id tm <> old).
Proof.
  intros _. destruct st. run_ops.
  destruct (JsObj.get expireTimeouts0 key) as [old|] eqn:Hold; cbn -[cancel];
    rewrite !JsObjFacts.get_delete_same; repeat split; auto.
  - intros other Hne. apply JsObjFacts.get_delete_other. congruence.
  - intros old' [= <-] tm Htm. apply In_cancel in Htm. tauto.
  - intros other Hne. apply JsObjFacts.get_delete_other. congruence.
  - intros old' [=].
Qed.

(** X3.  [renew(key)] for a key that names no member of
    [Object.prototype] and has neither a recorded renewal nor a stored
    token returns a promise rejected with the usage error and changes
    nothing: no request goes out, no timer is touched, nothing is recorded
    for the key. *)
Theorem renew_missing_token (key : string) (st : State) :
  JsKey.ordinary key = true ->
  JsObj.get (renewPromise st) key = None ->
  JsObj.get (tokenStorage st) key = None ->
  renew imp key st = (Normal (PromiseReject (AuthSdkError imp (renew_missing key))), st).
Proof.
  intros _ Hmemo Htoken.
  unfold renew, get, getStorage, try_catch, bind, gets, ret, throw.
  rewrite Hmemo, Htoken. reflexivity.
Qed.


End Storage.

(** X5.  The wait of an expiry timer is never negative, and for a token
    with an [expiresAt] it is zero exactly when the token has expired. *)
Theorem wait_of_expired (st : State) (token : Token) :
  0 <= delay (expireEventWait st token)
  /\ (forall e, expiresAt token = Some e ->
        (hasExpired st token = true <-> delay (expireEventWait st token) = 0)).
Proof.
  unfold expireEventWait, hasExpired, getExpireTime, delay.
  destruct (expiresAt token) as [e|]; split; try lia.
  intros e' [=].
Qed.

(** *** Settlement of a renewal *)

Section Settlement.

Variable imp : Imports.

(** X6.  The renewal behind chain [p], started for [key], resolves with
    a well-formed token: the chain fulfils with it, it replaces what was
    stored under the key, a new expiry timer is scheduled for it, the key
    has no recorded renewal any more, and the events are ['removed'] with
    the old token, ['added'] with the new one, ['renewed'] with both. *)
Theorem renew_fulfilled (st : State) (p : nat) (key : string) (fresh : Token) :
  lookup_inflight (inflight st) p = Some key ->
  ~ malformed imp (Some fresh) ->
  exists st',
    settle imp p (inr (Some fresh)) st = Some (Normal (Some fresh), st')
    /\ JsObj.get (tokenStorage st') key = Some fresh
    /\ (forall other, other <> key ->
          JsObj.get (tokenStorage st') other = JsObj.get (tokenStorage st) other)
    /\ emitter st' =
         emitter st ++ [EVENT_REMOVED key (JsObj.get (tokenStorage st) key);
                        EVENT_ADDED key fresh;
                        EVENT_RENEWED key (Some fresh) (JsObj.get (tokenStorage st) key)]
    /\ JsObj.get (renewPromise st') key = None
    /\ (exists id,
          JsObj.get (expireTimeouts st') key = Some id
          /\ In (mkTimer id (delay (expireEventWait st fresh)) (EmitExpired key fresh))
                (timers st'))
    /\ lookup_inflight (inflight st') p = None.
Proof.
  intros Hp Hfresh. apply invalidToken_wellformed in Hfresh.
  unfold settle. rewrite Hp. destruct st. exec_chain.
  destruct (JsObj.get expireTimeouts0 key) as [old|] eqn:Hold;
    cbn -[cancel invalidToken expireEventWait delay];
    rewrite Hfresh; cbn -[cancel expireEventWait delay];
    rewrite ?JsObjFacts.get_delete_same; cbn -[cancel expireEventWait delay];
    eexists; (split; [reflexivity|]); cbn -[cancel expireEventWait delay];
    (split; [apply JsObjFacts.get_set_same|]);
    (split; [intros other Hne;
             rewrite JsObjFacts.get_set_other, JsObjFacts.get_delete_other by congruence;
             reflexivity|]);
    (split; [rewrite <- !app_assoc; reflexivity|]);
    (split; [apply JsObjFacts.get_delete_same|]);
    (split; [eexists; split; [apply JsObjFacts.get_set_same | apply in_or_app; right; now left]|]).
  all: clear; induction inflight0 as [|[q k] l IH]; cbn; auto;
    destruct (Nat.eqb_spec q p); cbn; auto;
    destruct (Nat.eqb_spec q p); [contradiction | exact IH].
Qed.

(** X7.  The renewal resolves with a value that fails validation
    (nothing at all, or a malformed token).  The old token has been removed
    from storage before the new one is validated, and the usage error that
    validation throws is handled like an authorization error: the key ends
    up without a stored token, the events are ['removed'] with the old
    token, ['removed'] without a token and ['error'], and the chain rejects
    with the usage error tagged with the key. *)
Theorem renew_fulfilled_with_malformed (st : State) (p : nat) (key : string)
    (fresh : option Token) :
  lookup_inflight (inflight st) p = Some key ->
  malformed imp fresh ->
  err_name (AuthSdkError imp validateToken_message) = "AuthSdkError" ->
  let err := set_tokenKey (AuthSdkError imp validateToken_message) key in
  exists st',
    settle imp p (inr fresh) st = Some (Thrown err, st')
    /\ tokenStorage st' = JsObj.delete (tokenStorage st) key
    /\ emitter st' =
         emitter st ++ [EVENT_REMOVED key (JsObj.get (tokenStorage st) key);
                        EVENT_REMOVED key None;
                        EVENT_ERROR err]
    /\ JsObj.get (renewPromise st') key = None.
Proof.
  intros Hp Hfresh Hname err. apply invalidToken_malformed in Hfresh.
  assert (Hauth : isAuthorizationError (AuthSdkError imp validateToken_message) = true).
  { unfold isAuthorizationError. rewrite Hname. reflexivity. }
  unfold settle. rewrite Hp. destruct st. exec_chain.
  destruct (JsObj.get expireTimeouts0 key) as [old|] eqn:Hold;
    cbn -[cancel invalidToken isAuthorizationError];
    rewrite Hfresh; cbn -[cancel isAuthorizationError];
    rewrite Hauth; cbn -[cancel];
    rewrite ?JsObjFacts.get_delete_same; cbn -[cancel];
    eexists; (split; [reflexivity|]); cbn -[cancel];
    (split; [reflexivity|]);
    (split; [rewrite <- !app_assoc; reflexivity|]);
    apply JsObjFacts.get_delete_same.
Qed.

(** X8.  The renewal is rejected with an error that is neither an
    [OAuthError] nor an [AuthSdkError] (a network failure, say): the chain
    rejects with the error as it came, without a [tokenKey]; nothing is
    emitted, storage and timers stay, only the recorded renewal goes. *)
Theorem renew_rejected_other_error (st : State) (p : nat) (key : string) (err : Error) :
  lookup_inflight (inflight st) p = Some key ->
  isAuthorizationError err = false ->
  exists st',
    settle imp p (inl err) st = Some (Thrown err, st')
    /\ emitter st' = emitter st
    /\ tokenStorage st' = tokenStorage st
    /\ timers st' = timers st
    /\ expireTimeouts st' = expireTimeouts st
    /\ JsObj.get (renewPromise st') key = None.
Proof.
  intros Hp Herr. unfold settle. rewrite Hp.
  unfold renew_chain, finally, try_catch, throw, renew_catch. rewrite Herr.
  unfold renew_finally, modify. destruct st. cbn.
  eexists. repeat split. apply JsObjFacts.get_delete_same.
Qed.

End Settlement.

(** *** [clear] *)

(** X9.  [clear()] empties storage and cancels every recorded expiry
    timer, and it is silent: no ['removed'] event, or any other, is
    emitted for the tokens it drops. *)
Theorem clear_is_silent (st : State) :
  exists st',
    clear st = (Normal tt, st')
    /\ tokenStorage st' = []
    /\ emitter st' = emitter st
    /\ (forall k, JsObj.get (expireTimeouts st') k = None)
    /\ (forall k old, JsObj.get (expireTimeouts st) k = Some old ->
          forall tm, In tm (timers st') -> timer_id tm <> old)
    /\ (forall tm, In tm (timers st') -> In tm (timers st)).
Proof.
  unfold clear, clearExpireEventTimeoutAll.
  destruct (clear_loop_spec (JsObj.keys (expireTimeouts st)) st)
    as (s1 & Hrun & (_ & _ & Hemit & _) & _ & Hsub & Hnone & Hgone).
  exists (with_tokenStorage (fun _ => []) s1).
  unfold bind at 1, gets at 1. unfold bind. rewrite Hrun.
  unfold clearStorage, modify. split; [reflexivity|].
  destruct s1. cbn in *. repeat split; auto.
  - intros k. apply Hnone.
    destruct (JsObj.get (expireTimeouts st) k) eqn:E; [left | now right].
    eapply JsObjFacts.get_In_keys; eauto.
  - intros k old Hget. apply (Hgone k old); auto.
    eapply JsObjFacts.get_In_keys; eauto.
Qed.

(** *** The throttle queue *)

(** X10.  The queue never holds more than nine timestamps, and none of
    the first nine attempts of a manager is throttled, however close
    together they are. *)
Theorem throttle_queue_bounded (history : list Z) :
  List.length (queue_after history) = Nat.min (List.length history) 9
  /\ ((List.length history < 9)%nat ->
      forall t, shouldThrottleRenew (queue_after history) t
                = (false, queue_after history ++ [t])).
Proof.
  split.
  - rewrite queue_after_window, length_skipn. lia.
  - intros Hlt t. rewrite shouldThrottleRenew_step.
    2:{ rewrite queue_after_window, length_skipn. lia. }
    assert (Hlen : List.length (queue_after history) = List.length history).
    { rewrite queue_after_window, length_skipn. lia. }
    destruct (queue_after history) as [|a rest]; [reflexivity|].
    destruct (Nat.eqb_spec (List.length (a :: rest)) 9); [lia | reflexivity].
Qed.

(** *** Expiry without automatic renewal *)

Section Expiry.

Variable imp : Imports.

(** X11.  With automatic renewal off and automatic removal on, the firing
    of a key's expiry timer emits ['expired'] with the token the timer was
    set for and then removes the key: ['removed'] is emitted with what was
    stored, the key reads as absent, no renewal request goes out and the
    throttle queue is not touched.  With both off, ['expired'] is all that
    happens. *)
Theorem expiry_without_renewal (st : State) (dateNow : Z) (id : nat) (key : string)
    (token : Token) (wait : Z) :
  find (fun t => Nat.eqb (timer_id t) id) (timers st)
    = Some (mkTimer id wait (EmitExpired key token)) ->
  autoRenew (options st) = false ->
  exists st',
    fire imp dateNow id st = (Normal tt, st')
    /\ requests st' = requests st
    /\ renewTimeQueue st' = renewTimeQueue st
    /\ (forall tm, In tm (timers st') -> timer_id tm <> id)
    /\ (autoRemove (options st) = true ->
        emitter st' = emitter st ++ [EVENT_EXPIRED key token;
                                     EVENT_REMOVED key (JsObj.get (tokenStorage st) key)]
        /\ JsObj.get (tokenStorage st') key = None)
    /\ (autoRemove (options st) = false ->
        emitter st' = emitter st ++ [EVENT_EXPIRED key token]
        /\ tokenStorage st' = tokenStorage st).
Proof.
  intros Hfind Hauto. destruct st. cbn in Hfind, Hauto.
  unfold fire, runTask, onTokenExpiredHandler, remove, clearExpireEventTimeout,
    clearTimeout, emitExpired, emitRemoved, emit, getStorage, setStorage,
    bind, gets, modify, ret.
  cbn -[cancel]. rewrite Hfind. cbn -[cancel]. rewrite Hauto.
  destruct options0 as [ar arm ees sk sed]. cbn in Hauto. subst ar.
  destruct arm; cbn -[cancel].
  - destruct (JsObj.get expireTimeouts0 key) as [old|]; cbn -[cancel];
      eexists; (split; [reflexivity|]); cbn -[cancel];
      (split; [reflexivity|]); (split; [reflexivity|]); (split; [|split]).
    all: try (intros tm Htm; repeat (apply In_cancel in Htm; destruct Htm as [Htm ?]);
              assumption).
    all: try (intros _; split;
              [rewrite <- app_assoc; reflexivity | apply JsObjFacts.get_delete_same]).
    all: intros [=].
  - eexists; (split; [reflexivity|]); cbn -[cancel];
      (split; [reflexivity|]); (split; [reflexivity|]); (split; [|split]).
    + intros tm Htm. apply In_cancel in Htm. tauto.
    + intros [=].
    + intros _. split; reflexivity.
Qed.

End Expiry.

(** *** The storage listener *)

(** X12.  A storage event with a non-empty key is ignored, state unchanged,
    when the key is not the configured storage key or when the old and new
    values are equal.  An event whose key is the empty string is handled
    like one without a key: the change handler is scheduled whatever the
    storage key and the values are. *)
Theorem storage_event_skipped (st : State) (ev : StorageEvent) :
  (forall k,
     key ev = Some k -> k <> "" ->
     k <> storageKey (options st) \/ newValue ev = oldValue ev ->
     onStorage ev st = (Normal tt, st))
  /\ (key ev = Some "" ->
      timers (snd (onStorage ev st))
      = timers st ++ [mkTimer (nextTimer st) (_storageEventDelay (options st))
                        (HandleCrossTabsStorageChange (newValue ev) (oldValue ev))]).
Proof.
  split.
  - intros k Hk Hne Hor. unfold onStorage, bind, gets, skipStorageEvent.
    rewrite Hk. cbn.
    destruct (String.eqb_spec k ""); [contradiction|]. cbn.
    destruct Hor as [Hkey|Hval].
    + destruct (String.eqb_spec k (storageKey (options st))); [contradiction|]. reflexivity.
    + rewrite Hval.
      replace (Js.strict_neq (oldValue ev) (oldValue ev)) with false.
      * rewrite orb_true_r. reflexivity.
      * destruct (oldValue ev) as [v|]; cbn; [now rewrite String.eqb_refl | reflexivity].
  - intros Hk. unfold onStorage, bind, gets, skipStorageEvent. rewrite Hk. cbn.
    destruct st. reflexivity.
Qed.

Section Diff.

Variable imp : Imports.


End Diff.

(** *** Reading storage by kind *)

Lemma hd_filter_some {A : Type} (f : A -> bool) (l : list A) (x : A) :
  hd_error (filter f l) = Some x -> In x l /\ f x = true.
Proof.
  induction l as [|a l IH]; cbn; [discriminate|].
  destruct (f a) eqn:E; cbn.
  - intros [= <-]. auto.
  - intros H. apply IH in H. tauto.
Qed.

Lemma hd_filter_none {A : Type} (f : A -> bool) (l : list A) :
  hd_error (filter f l) = None -> forall x, In x l -> f x = false.
Proof.
  induction l as [|a l IH]; cbn; [intros _ x []|].
  destruct (f a) eqn:E; cbn; [discriminate|].
  intros H x [<-|Hin]; auto.
Qed.

Section Kinds.

Variable imp : Imports.

(** X14.  [getKeyByType] leaves the state as it is.  A key it returns holds
    a token of the asked kind; when it returns no key, no stored token is
    of that kind. *)
Theorem getKeyByType_finds (type : TokenType) (st : State) :
  exists r,
    getKeyByType imp type st = (Normal r, st)
    /\ (forall k, r = Some k ->
          exists t, JsObj.get (tokenStorage st) k = Some t /\ ofType imp type t = true)
    /\ (r = None ->
          forall k t, JsObj.get (tokenStorage st) k = Some t -> ofType imp type t = false).
Proof.
  unfold getKeyByType, getStorage, bind, gets, ret. eexists. split; [reflexivity|]. split.
  - intros k Hk. apply hd_filter_some in Hk. destruct Hk as [_ Hk].
    destruct (JsObj.get (tokenStorage st) k) as [t|]; [eauto | discriminate].
  - intros Hnone k t Hget.
    pose proof (hd_filter_none _ _ Hnone k (JsObjFacts.get_In_keys _ _ _ Hget)) as H.
    cbn in H. now rewrite Hget in H.
Qed.

(** What a bag read from [storage] may hold: a token in a slot is stored
    under some key and is of the slot's kind, an access token taking
    precedence over an id token and both over a refresh token. *)
Definition sorted_from (storage : JsObj.t Token) (r : Tokens) : Prop :=
  (forall t, tokens_accessToken r = Some t ->
     exists k, JsObj.get storage k = Some t /\ isAccessToken imp t = true)
  /\ (forall t, tokens_idToken r = Some t ->
        exists k, JsObj.get storage k = Some t
                  /\ isAccessToken imp t = false /\ isIDToken imp t = true)
  /\ (forall t, tokens_refreshToken r = Some t ->
        exists k, JsObj.get storage k = Some t
                  /\ isAccessToken imp t = false /\ isIDToken imp t = false
                  /\ isRefreshToken imp t = true).

Lemma classify_sorted (storage : JsObj.t Token) (acc : Tokens) (k : string) :
  sorted_from storage acc -> sorted_from storage (classify imp storage acc k).
Proof.
  intros (Ha & Hi & Hr). unfold classify.
  destruct (JsObj.get storage k) as [t|] eqn:Hget; [|repeat split; assumption].
  destruct (isAccessToken imp t) eqn:Ea; [|destruct (isIDToken imp t) eqn:Ei;
    [|destruct (isRefreshToken imp t) eqn:Er]].
  - split; [|split]; cbn; [|assumption|assumption]. intros t' [= <-]. eauto.
  - split; [|split]; cbn; [assumption| |assumption]. intros t' [= <-]. eauto.
  - split; [|split]; cbn; [assumption|assumption|]. intros t' [= <-]. eauto 6.
  - repeat split; assumption.
Qed.

Lemma fold_classify_sorted (storage : JsObj.t Token) (ks : list string) (acc : Tokens) :
  sorted_from storage acc -> sorted_from storage (fold_left (classify imp storage) ks acc).
Proof.
  revert acc. induction ks as [|k ks IH]; intros acc H; cbn; [exact H|].
  apply IH, classify_sorted, H.
Qed.

(** The slots a token leaves empty: none when it is not stored. *)
Definition misses (r : Tokens) (t : Token) : Prop :=
  (tokens_accessToken r = None -> isAccessToken imp t = false)
  /\ (tokens_idToken r = None -> isAccessToken imp t = true \/ isIDToken imp t = false)
  /\ (tokens_refreshToken r = None ->
      isAccessToken imp t = true \/ isIDToken imp t = true \/ isRefreshToken imp t = false).

(** A slot that is filled stays filled. *)
Definition fills (r r' : Tokens) : Prop :=
  (tokens_accessToken r <> None -> tokens_accessToken r' <> None)
  /\ (tokens_idToken r <> None -> tokens_idToken r' <> None)
  /\ (tokens_refreshToken r <> None -> tokens_refreshToken r' <> None).

Lemma classify_fills (storage : JsObj.t Token) (acc : Tokens) (k : string) :
  fills acc (classify imp storage acc k).
Proof.
  unfold classify, fills.
  destruct (JsObj.get storage k) as [t|]; [|tauto].
  destruct (isAccessToken imp t); [|destruct (isIDToken imp t);
    [|destruct (isRefreshToken imp t)]]; cbn; intuition discriminate.
Qed.

Lemma fold_classify_fills (storage : JsObj.t Token) (ks : list string) (acc : Tokens) :
  fills acc (fold_left (classify imp storage) ks acc).
Proof.
  revert acc. induction ks as [|k ks IH]; intros acc; cbn; [unfold fills; tauto|].
  pose proof (classify_fills storage acc k) as H1.
  pose proof (IH (classify imp storage acc k)) as H2.
  unfold fills in *. tauto.
Qed.

Lemma classify_misses (storage : JsObj.t Token) (acc : Tokens) (k : string) (t : Token) :
  JsObj.get storage k = Some t ->
  forall r, fills (classify imp storage acc k) r -> misses r t.
Proof.
  intros Hget r. unfold classify, fills, misses. rewrite Hget.
  destruct (isAccessToken imp t); [|destruct (isIDToken imp t);
    [|destruct (isRefreshToken imp t)]]; cbn; intros (Fa & Fi & Fr).
  - split; [|tauto]. intros E. exfalso. apply Fa; [discriminate | exact E].
  - split; [reflexivity|]. split; [|tauto]. intros E. exfalso. apply Fi; [discriminate | exact E].
  - split; [reflexivity|]. split; [tauto|]. intros E. exfalso. apply Fr; [discriminate | exact E].
  - tauto.
Qed.

Lemma fold_classify_misses (storage : JsObj.t Token) (ks : list string) (acc : Tokens)
    (k : string) (t : Token) :
  In k ks -> JsObj.get storage k = Some t ->
  misses (fold_left (classify imp storage) ks acc) t.
Proof.
  revert acc. induction ks as [|k0 ks IH]; intros acc [] Hget; cbn.
  - subst k0. eapply classify_misses; [exact Hget|]. apply fold_classify_fills.
  - apply IH; assumption.
Qed.

(** X15.  [getTokens] leaves the state as it is, and [getTokensAsync]
    resolves with the same bag.  Every slot of the bag holds a stored token
    of the slot's kind, a token being sorted as an access token before an
    id token before a refresh token; a slot is empty only when no stored
    token sorts into it. *)
Theorem getTokens_sorts (st : State) :
  exists r,
    getTokens imp st = (Normal r, st)
    /\ getTokensAsync imp st = (Normal (inr r), st)
    /\ sorted_from (tokenStorage st) r
    /\ (forall k t, JsObj.get (tokenStorage st) k = Some t -> misses r t).
Proof.
  unfold getTokensAsync, promiseOf, try_catch, getTokens, getStorage, bind, gets, ret.
  eexists. split; [reflexivity|]. split; [reflexivity|]. split.
  - apply fold_classify_sorted. repeat split; cbn; discriminate.
  - intros k t Hget. eapply fold_classify_misses; [|exact Hget].
    eapply JsObjFacts.get_In_keys; eauto.
Qed.

End Kinds.

(** *** [setTokens] and storage *)

Section Bag.

Variable imp : Imports.

Lemma notify_storage (type : TokenType) (key : string) (token existing : option Token)
    (tokenCb : bool) (s : State) :
  exists s',
    notify type key token existing tokenCb s = (Normal tt, s')
    /\ tokenStorage s' = tokenStorage s.
Proof.
  destruct s. exec_set.
  destruct token as [t|]; [|destruct existing as [old|]];
    cbn -[cancel expireEventWait delay];
    try (destruct (JsObj.get expireTimeouts0 key), tokenCb;
         cbn -[cancel expireEventWait delay]);
    eexists; split; reflexivity.
Qed.

(** The storage value [setTokens] writes. *)
Definition written (st : State) (tokens : Tokens) : JsObj.t Token :=
  spread (spread (spread [] (keyOf imp st idTokenType) (tokens_idToken tokens))
                 (keyOf imp st accessTokenType) (tokens_accessToken tokens))
         (keyOf imp st refreshTokenType) (tokens_refreshToken tokens).

(** [setTokens] past its validation: the write, then the three
    notifications against the bag read back from storage. *)
Lemma setTokens_unfold (st : State) (tokens : Tokens)
    (accessTokenCb idTokenCb refreshTokenCb : bool) :
  (forall t, tokens_idToken tokens = Some t -> ~ malformed imp (Some t)) ->
  (forall t, tokens_accessToken tokens = Some t -> ~ malformed imp (Some t)) ->
  let s0 := with_tokenStorage (fun _ => written st tokens) st in
  let existingTokens :=
    fold_left (classify imp (written st tokens)) (JsObj.keys (written st tokens))
              (mkTokens None None None) in
  setTokens imp tokens accessTokenCb idTokenCb refreshTokenCb st
  = (notify idTokenType (keyOf imp st idTokenType) (tokens_idToken tokens)
       (tokens_idToken existingTokens) idTokenCb ;;
     notify accessTokenType (keyOf imp st accessTokenType) (tokens_accessToken tokens)
       (tokens_accessToken existingTokens) accessTokenCb ;;
     notify refreshTokenType (keyOf imp st refreshTokenType) (tokens_refreshToken tokens)
       (tokens_refreshToken existingTokens) refreshTokenCb) s0.
Proof.
  intros Hid Haccess s0 existingTokens.
  assert (Hid' : when (Js.truthy_object (tokens_idToken tokens))
                   (validateToken imp (tokens_idToken tokens)) st = (Normal tt, st)).
  { destruct (tokens_idToken tokens) as [t|]; [|reflexivity].
    cbn. unfold validateToken.
    now rewrite (proj2 (invalidToken_wellformed imp (Some t)) (Hid t eq_refl)). }
  assert (Hacc' : when (Js.truthy_object (tokens_accessToken tokens))
                    (validateToken imp (tokens_accessToken tokens)) st = (Normal tt, st)).
  { destruct (tokens_accessToken tokens) as [t|]; [|reflexivity].
    cbn. unfold validateToken.
    now rewrite (proj2 (invalidToken_wellformed imp (Some t)) (Haccess t eq_refl)). }
  unfold setTokens.
  unfold bind at 1. rewrite Hid'. unfold bind at 1. rewrite Hacc'.
  subst s0 existingTokens. unfold written, keyOf.
  destruct st. reflexivity.
Qed.

Lemma get_spread (o : JsObj.t Token) (key : string) (token : option Token) (k : string) :
  JsObj.get (spread o key token) k
  = match token with
    | Some t => if string_dec key k then Some t else JsObj.get o k
    | None => JsObj.get o k
    end.
Proof.
  destruct token as [t|]; cbn; [|reflexivity].
  destruct (string_dec key k) as [->|Hne].
  - apply JsObjFacts.get_set_same.
  - now apply JsObjFacts.get_set_other.
Qed.

(** X16.  When the id and access tokens of the bag pass validation,
    [setTokens] replaces the whole storage value by the bag: each kind's key
    holds the bag's token where the bag has one, and every other key reads
    as absent afterwards, whatever it held before. *)
Theorem setTokens_replaces_storage (st : State) (tokens : Tokens)
    (accessTokenCb idTokenCb refreshTokenCb : bool) :
  (forall t, tokens_idToken tokens = Some t -> ~ malformed imp (Some t)) ->
  (forall t, tokens_accessToken tokens = Some t -> ~ malformed imp (Some t)) ->
  let st' := snd (setTokens imp tokens accessTokenCb idTokenCb refreshTokenCb st) in
  tokenStorage st' = written st tokens
  /\ (forall k, k <> keyOf imp st idTokenType -> k <> keyOf imp st accessTokenType ->
                k <> keyOf imp st refreshTokenType ->
                JsObj.get (tokenStorage st') k = None)
  /\ (forall t, tokens_refreshToken tokens = Some t ->
                JsObj.get (tokenStorage st') (keyOf imp st refreshTokenType) = Some t).
Proof.
  intros Hid Haccess st'.
  assert (Hsto : tokenStorage st' = written st tokens).
  { subst st'. rewrite setTokens_unfold by assumption. cbv zeta.
    set (s0 := with_tokenStorage _ st).
    assert (Hs0 : tokenStorage s0 = written st tokens) by (subst s0; destruct st; reflexivity).
    destruct (notify_storage idTokenType (keyOf imp st idTokenType) (tokens_idToken tokens)
                (tokens_idToken (fold_left (classify imp (written st tokens))
                                   (JsObj.keys (written st tokens)) (mkTokens None None None)))
                idTokenCb s0) as (s1 & Hn1 & Hs1).
    destruct (notify_storage accessTokenType (keyOf imp st accessTokenType)
                (tokens_accessToken tokens)
                (tokens_accessToken (fold_left (classify imp (written st tokens))
                                       (JsObj.keys (written st tokens)) (mkTokens None None None)))
                accessTokenCb s1) as (s2 & Hn2 & Hs2).
    destruct (notify_storage refreshTokenType (keyOf imp st refreshTokenType)
                (tokens_refreshToken tokens)
                (tokens_refreshToken (fold_left (classify imp (written st tokens))
                                        (JsObj.keys (written st tokens)) (mkTokens None None None)))
                refreshTokenCb s2) as (s3 & Hn3 & Hs3).
    unfold bind. rewrite Hn1, Hn2, Hn3. cbn. congruence. }
  split; [exact Hsto|]. rewrite Hsto. unfold written. split.
  - intros k H1 H2 H3. rewrite !get_spread.
    destruct (tokens_refreshToken tokens), (tokens_accessToken tokens),
      (tokens_idToken tokens);
      repeat match goal with
      | |- context [string_dec ?a ?b] => destruct (string_dec a b); [congruence|]
      end; reflexivity.
  - intros t Ht. rewrite get_spread, Ht.
    destruct (string_dec _ _); [reflexivity | contradiction].
Qed.

End Bag.

(** *** [setTokens]: validation and events *)

Section BagEvents.

Variable imp : Imports.

(** X17.  [setTokens] with a malformed id token, or with a malformed access
    token, throws the usage error of [validateToken] before anything is
    written: the state is exactly as before the call. *)
Theorem setTokens_rejects_malformed (st : State) (tokens : Tokens)
    (accessTokenCb idTokenCb refreshTokenCb : bool) :
  (exists t, tokens_idToken tokens = Some t /\ malformed imp (Some t))
  \/ (exists t, tokens_accessToken tokens = Some t /\ malformed imp (Some t)) ->
  setTokens imp tokens accessTokenCb idTokenCb refreshTokenCb st
  = (Thrown (AuthSdkError imp validateToken_message), st).
Proof.
  intros H. unfold setTokens. cbv zeta.
  assert (V : forall t, malformed imp (Some t) ->
                forall s : State,
                  when (Js.truthy_object (Some t)) (validateToken imp (Some t)) s
                  = (Thrown (AuthSdkError imp validateToken_message), s)).
  { intros t Hm s. apply invalidToken_malformed in Hm.
    cbn [Js.truthy_object when]. unfold validateToken. now rewrite Hm. }
  destruct (tokens_idToken tokens) as [ti|] eqn:Ei.
  - destruct (invalidToken imp (Some ti)) eqn:Vi.
    + apply invalidToken_malformed in Vi. unfold bind at 1. now rewrite V.
    + destruct H as [(t & [= <-] & Hm)|(t & Ha & Hm)].
      * apply invalidToken_malformed in Hm. congruence.
      * unfold bind at 1. cbn [Js.truthy_object when]. unfold validateToken at 1.
        rewrite Vi. unfold ret at 1. unfold bind at 1. rewrite Ha. now rewrite V.
  - destruct H as [(t & [=] & _)|(t & Ha & Hm)].
    unfold bind at 1. cbn [Js.truthy_object when]. unfold ret at 1.
    unfold bind at 1. rewrite Ha. now rewrite V.
Qed.

(** The token is of kind [type] and of no other. *)
Definition kind_is (type : TokenType) (t : Token) : Prop :=
  isAccessToken imp t = match type with accessTokenType => true | _ => false end
  /\ isIDToken imp t = match type with idTokenType => true | _ => false end
  /\ isRefreshToken imp t = match type with refreshTokenType => true | _ => false end.

(** The ['added'] event of a kind of the bag. *)
Definition added (key : string) (token : option Token) : list Event :=
  match token with
  | Some t => [EVENT_ADDED key t]
  | None => []
  end.

Lemma notify_added (type : TokenType) (key : string) (token existing : option Token)
    (tokenCb : bool) (s : State) :
  (token = None -> existing = None) ->
  exists s',
    notify type key token existing tokenCb s = (Normal tt, s')
    /\ emitter s' = emitter s ++ added key token.
Proof.
  intros H. destruct token as [t|].
  - destruct (notify_events type key (Some t) existing tokenCb s) as (s' & ev & Hn & He & Hs).
    cbn in Hs. subst ev. eauto.
  - rewrite (H eq_refl). exists s. cbn. now rewrite app_nil_r.
Qed.

(** X18.  When every token of the bag is of its own kind only (and the id
    and access tokens pass validation), [setTokens] emits one ['added'] per
    token of the bag, in the order id, access, refresh, and nothing else:
    no ['removed'] is emitted, not even for a stored token of a kind the
    bag leaves out, whose key the call drops from storage. *)
Theorem setTokens_emits_added_only (st : State) (tokens : Tokens)
    (accessTokenCb idTokenCb refreshTokenCb : bool) :
  (forall t, tokens_idToken tokens = Some t ->
     ~ malformed imp (Some t) /\ kind_is idTokenType t) ->
  (forall t, tokens_accessToken tokens = Some t ->
     ~ malformed imp (Some t) /\ kind_is accessTokenType t) ->
  (forall t, tokens_refreshToken tokens = Some t -> kind_is refreshTokenType t) ->
  exists st',
    setTokens imp tokens accessTokenCb idTokenCb refreshTokenCb st = (Normal tt, st')
    /\ emitter st'
       = emitter st
         ++ added (keyOf imp st idTokenType) (tokens_idToken tokens)
         ++ added (keyOf imp st accessTokenType) (tokens_accessToken tokens)
         ++ added (keyOf imp st refreshTokenType) (tokens_refreshToken tokens).
Proof.
  intros Hid Hacc Href.
  rewrite setTokens_unfold by (intros t E; first [apply (Hid t E) | apply (Hacc t E)]).
  cbv zeta.
  set (s0 := with_tokenStorage _ st).
  assert (Hs0 : emitter s0 = emitter st) by (subst s0; destruct st; reflexivity).
  set (existingTokens := fold_left _ _ _).
  assert (Hsorted : sorted_from imp (written imp st tokens) existingTokens).
  { apply fold_classify_sorted. repeat split; cbn; discriminate. }
  assert (Hfrom : forall k t, JsObj.get (written imp st tokens) k = Some t ->
            tokens_idToken tokens = Some t \/ tokens_accessToken tokens = Some t
            \/ tokens_refreshToken tokens = Some t).
  { intros k t. unfold written. rewrite !get_spread.
    destruct (tokens_refreshToken tokens), (tokens_accessToken tokens),
      (tokens_idToken tokens);
      repeat match goal with
      | |- context [string_dec ?a ?b] => destruct (string_dec a b)
      end; cbn; intros [=]; subst; auto. }
  destruct Hsorted as (Sa & Si & Sr).
  assert (Ei : tokens_idToken tokens = None -> tokens_idToken existingTokens = None).
  { intros En. destruct (tokens_idToken existingTokens) as [t|] eqn:E; [|reflexivity].
    destruct (Si t eq_refl) as (k & Hget & Ha & Hi).
    destruct (Hfrom k t Hget) as [H|[H|H]].
    - congruence.
    - destruct (Hacc t H) as (_ & _ & X & _). congruence.
    - destruct (Href t H) as (_ & X & _). congruence. }
  assert (Ea : tokens_accessToken tokens = None -> tokens_accessToken existingTokens = None).
  { intros En. destruct (tokens_accessToken existingTokens) as [t|] eqn:E; [|reflexivity].
    destruct (Sa t eq_refl) as (k & Hget & Ha).
    destruct (Hfrom k t Hget) as [H|[H|H]].
    - destruct (Hid t H) as (_ & X & _). congruence.
    - congruence.
    - destruct (Href t H) as (X & _). congruence. }
  assert (Er : tokens_refreshToken tokens = None -> tokens_refreshToken existingTokens = None).
  { intros En. destruct (tokens_refreshToken existingTokens) as [t|] eqn:E; [|reflexivity].
    destruct (Sr t eq_refl) as (k & Hget & Ha & Hi & Hr).
    destruct (Hfrom k t Hget) as [H|[H|H]].
    - destruct (Hid t H) as (_ & _ & _ & X). congruence.
    - destruct (Hacc t H) as (_ & _ & _ & X). congruence.
    - congruence. }
  destruct (notify_added idTokenType (keyOf imp st idTokenType) (tokens_idToken tokens)
              (tokens_idToken existingTokens) idTokenCb s0 Ei) as (s1 & Hn1 & He1).
  destruct (notify_added accessTokenType (keyOf imp st accessTokenType)
              (tokens_accessToken tokens) (tokens_accessToken existingTokens)
              accessTokenCb s1 Ea) as (s2 & Hn2 & He2).
  destruct (notify_added refreshTokenType (keyOf imp st refreshTokenType)
              (tokens_refreshToken tokens) (tokens_refreshToken existingTokens)
              refreshTokenCb s2 Er) as (s3 & Hn3 & He3).
  exists s3. unfold bind. rewrite Hn1, Hn2, Hn3. split; [reflexivity|].
  rewrite He3, He2, He1, Hs0, <- !app_assoc. reflexivity.
Qed.

End BagEvents.

(** *** Construction *)

(** X19.  A manager constructed over a storage value has emitted nothing
    and holds that value; for every stored token an expiry timer is
    pending, with the wait computed at construction time, and it is the
    timer recorded for the token's key; no timer is recorded for a key that
    is not stored. *)
Theorem constructor_schedules (clock : Z) (opts : Options) (storage : JsObj.t Token)
    (localhost : bool) :
  let st := constructor clock opts storage localhost in
  emitter st = [] /\ tokenStorage st = storage
  /\ (forall k t, JsObj.get storage k = Some t ->
        exists id,
          JsObj.get (expireTimeouts st) k = Some id
          /\ In (mkTimer id (delay (expireEventWait (fresh clock opts storage localhost) t))
                         (EmitExpired k t)) (timers st))
  /\ (forall k, JsObj.get storage k = None -> JsObj.get (expireTimeouts st) k = None).
Proof.
  intros st. subst st. unfold constructor, setExpireEventTimeoutAll.
  set (s := fresh clock opts storage localhost).
  assert (Hfresh : ids_fresh s) by (split; cbn; intros; discriminate).
  destruct (schedule_loop_spec storage (JsObj.keys storage) s Hfresh)
    as (s' & Hrun & (_ & _ & Hem & Hsto) & _ & _ & Hoth & _ & _ & Hset).
  assert (E : snd ((r <- try_catch (tokenStorage <- getStorage ;; ret (Some tokenStorage))
                          (fun e => emitError e ;; ret None) ;;
                    match r with
                    | None => ret tt
                    | Some tokenStorage =>
                        forEach (JsObj.keys tokenStorage) (fun key =>
                          match JsObj.get tokenStorage key with
                          | Some token => setExpireEventTimeout key token
                          | None => ret tt
                          end)
                    end) s) = s').
  { unfold bind at 1, try_catch, getStorage, bind, gets, ret. cbn [tokenStorage s fresh].
    change (snd (forEach (JsObj.keys storage) (schedule storage) s) = s').
    now rewrite Hrun. }
  rewrite E. split; [exact Hem|]. split; [exact Hsto|]. split.
  - intros k t Hget. apply Hset; [|exact Hget]. eapply JsObjFacts.get_In_keys; eauto.
  - intros k Hget. rewrite Hoth; [reflexivity|].
    intros Hin. apply JsObjFacts.In_keys_get in Hin. destruct Hin as (v & Hv). congruence.
Qed.

(** *** The timers across a manager's life *)




















Section Invariant.

Variable imp : Imports.





End Invariant.

(** *** Sample runs *)

Definition empty_manager : State := constructor 100 sample_options [] false.


Lemma remove_then_get_witness :
  getAsync "idToken" (snd (remove "idToken" started))
  = (Normal (inr None), snd (remove "idToken" started))
  /\ emitter (snd (remove "idToken" started))
     = [EVENT_REMOVED "idToken" (Some (sample_id 1000))].
Proof.
  destruct (remove_then_get "idToken" started eq_refl) as (_ & Hget & _ & Hemit & _).
  split; [exact Hget | exact Hemit].
Defined.

Lemma renew_missing_token_witness :
  renew sample_imports "idToken" empty_manager
  = (Normal (PromiseReject (AuthSdkError sample_imports (renew_missing "idToken"))),
     empty_manager).
Proof.
  apply (renew_missing_token sample_imports "idToken" empty_manager); reflexivity.
Defined.


Lemma renew_fulfilled_witness :
  exists st',
    settle sample_imports 0 (inr (Some (sample_id 2000))) renewing
      = Some (Normal (Some (sample_id 2000)), st')
    /\ JsObj.get (tokenStorage st') "idToken" = Some (sample_id 2000).
Proof.
  destruct (renew_fulfilled sample_imports renewing 0 "idToken" (sample_id 2000) eq_refl
              (proj1 (invalidToken_wellformed sample_imports (Some (sample_id 2000)))
                     eq_refl))
    as (st' & Hrun & Hget & _).
  exists st'. split; [exact Hrun | exact Hget].
Defined.

Lemma renew_fulfilled_with_malformed_witness :
  exists st',
    settle sample_imports 0 (inr None) renewing
      = Some (Thrown (set_tokenKey (AuthSdkError sample_imports validateToken_message)
                        "idToken"), st')
    /\ tokenStorage st' = [].
Proof.
  destruct (renew_fulfilled_with_malformed sample_imports renewing 0 "idToken" None
              eq_refl I eq_refl)
    as (st' & Hrun & Hsto & _).
  exists st'. split; [exact Hrun | exact Hsto].
Defined.

Definition network_error : Error := mkError "NetworkError" "timeout" None.

Lemma renew_rejected_other_error_witness :
  exists st',
    settle sample_imports 0 (inl network_error) renewing = Some (Thrown network_error, st')
    /\ tokenStorage st' = [("idToken", sample_id 1000)]
    /\ emitter st' = [].
Proof.
  destruct (renew_rejected_other_error sample_imports renewing 0 "idToken" network_error
              eq_refl eq_refl)
    as (st' & Hrun & Hemit & Hsto & _).
  exists st'. split; [exact Hrun|]. split; [exact Hsto | exact Hemit].
Defined.

(** A manager that removes expired tokens instead of renewing them. *)
Definition removing : State :=
  constructor 100 (mkOptions false true 30 "okta-token-storage" 0)
    [("idToken", sample_id 1000)] false.

Lemma expiry_without_renewal_witness :
  exists st',
    fire sample_imports 970000 0 removing = (Normal tt, st')
    /\ emitter st' = [EVENT_EXPIRED "idToken" (sample_id 1000);
                      EVENT_REMOVED "idToken" (Some (sample_id 1000))]
    /\ JsObj.get (tokenStorage st') "idToken" = None.
Proof.
  destruct (expiry_without_renewal sample_imports removing 970000 0 "idToken"
              (sample_id 1000) 870000 eq_refl eq_refl)
    as (st' & Hrun & _ & _ & _ & Hremove & _).
  exists st'. split; [exact Hrun|]. exact (Hremove eq_refl).
Defined.

Lemma access_only_wellformed (t : Token) :
  tokens_accessToken access_only = Some t -> ~ malformed sample_imports (Some t).
Proof. intros [= <-]. apply invalidToken_wellformed. reflexivity. Defined.

Lemma setTokens_replaces_storage_witness :
  tokenStorage (snd (setTokens sample_imports access_only false false false both_stored))
  = [("accessToken", sample_access 1000)].
Proof.
  apply (proj1 (setTokens_replaces_storage sample_imports both_stored access_only
                  false false false
                  (fun t (E : tokens_idToken access_only = Some t) =>
                     match E in _ = o return match o with
                                             | Some _ => ~ malformed sample_imports (Some t)
                                             | None => True
                                             end
                     with eq_refl => I end)
                  access_only_wellformed)).
Defined.

Definition broken_bag : Tokens :=
  mkTokens None (Some (mkToken None None (Some "id.jwt") None None)) None.

Lemma setTokens_rejects_malformed_witness :
  setTokens sample_imports broken_bag false false false started
  = (Thrown (AuthSdkError sample_imports validateToken_message), started).
Proof.
  apply (setTokens_rejects_malformed sample_imports started broken_bag false false false).
  left. eexists. split; [reflexivity|]. left. reflexivity.
Defined.

Lemma setTokens_emits_added_only_witness :
  exists st',
    setTokens sample_imports access_only false false false both_stored = (Normal tt, st')
    /\ emitter st'
       = emitter both_stored ++ [EVENT_ADDED "accessToken" (sample_access 1000)].
Proof.
  apply (setTokens_emits_added_only sample_imports both_stored access_only false false false).
  - intros t [=].
  - intros t H. split; [exact (access_only_wellformed t H)|].
    injection H as <-. repeat split.
  - intros t [=].
Defined.

End TokenManagerHostProps.

(** ** The IDX orchestrator *)

Module IdxRunProps.

Import Idx IdxProps.

Ltac run_cases :=
  unfold run, run_try, try_catch, run_catch, await, when, bind, modify, gets, ret, throw,
    initial;
  cbn; case_run.

(** An element of a list that is written out. *)
Ltac pick := solve [repeat first [left; reflexivity | right]].

(** Membership in a list that is written out, as a hypothesis. *)
Ltac split_in :=
  repeat match goal with
  | H : In _ (_ :: _) |- _ => destruct H as [H|H]
  | H : In _ [] |- _ => destruct H
  | H : _ \/ _ |- _ => destruct H as [H|H]
  | H : False |- _ => destruct H
  end.

Section Outcome.

Variable authClient : Collaborators.

(** X21.  The status [run] reports is backed by what happened: [FAILURE]
    exactly when an error is attached; [SUCCESS] exactly when the token
    exchange was called and resolved, and tokens are attached under no
    other status; [TERMINAL] only when [remediate] resolved with [terminal]
    set and [canceled] not set; [CANCELED] only when it resolved with
    [canceled] set. *)
Theorem run_status_backed (options : RunOptions) :
  let tx := fst (run authClient options) in
  let calls := snd (run authClient options) in
  (tx_status tx = FAILURE <-> tx_error tx <> None)
  /\ (tx_status tx = SUCCESS <->
      exists params urls t, In (ExchangeCodeForTokens params urls (inr t)) calls)
  /\ (tx_tokens tx <> None -> tx_status tx = SUCCESS)
  /\ (tx_status tx = TERMINAL ->
      exists resp, In (Remediate (inr resp)) calls
                   /\ terminal resp = true /\ canceled resp = false)
  /\ (tx_status tx = CANCELED ->
      exists resp, In (Remediate (inr resp)) calls /\ canceled resp = true).
Proof.
  run_cases.
  all: split; [split; intros; congruence|].
  all: split; [split; [intros; first [discriminate | do 3 eexists; pick]
                      | intros (? & ? & ? & H); split_in; congruence]|].
  all: split; [intros; congruence|].
  all: split; [intros; first [discriminate | eexists; split; [pick|split; congruence]]|].
  all: intros; first [discriminate | eexists; split; [pick|congruence]].
Qed.

(** With [remediators] or [actions] among the options, [run] takes the
    remediation branch. *)
Lemma run_with_remediators (options : RunOptions) :
  remediators options <> None \/ options_actions options <> None ->
  let tx := fst (run authClient options) in
  tx_meta tx = None /\ tx_enabledFeatures tx = None /\ tx_availableSteps tx = None
  /\ (forall response, tx_idxResponse tx = Some response ->
        exists r, In (Remediate r) (snd (run authClient options))).
Proof.
  run_cases.
  all: try match goal with
       | H : negb (Js.truthy_object (remediators ?o)) && _ = _ |- _ =>
           destruct (remediators o), (options_actions o);
           cbn in H; try discriminate H
       end.
  all: intros [?|?]; try congruence.
  all: do 3 (split; [reflexivity|]); intros response E; try discriminate E;
       eexists; pick.
Qed.

(** The arguments [run] passes on come from its options. *)
Definition from_options (options : RunOptions) (c : Call) : Prop :=
  match c with
  | SetFlow f => flow options = Some f /\ f <> ""
  | GetSavedTransactionMeta st => st = state options
  | Interact s st sc _ => s = sso options /\ st = state options /\ sc = scopes options
  | _ => True
  end.

Lemma run_call_arguments (options : RunOptions) :
  Forall (from_options options) (snd (run authClient options)).
Proof.
  run_cases.
  all: repeat (constructor;
               [first [exact I | reflexivity | repeat split; reflexivity
                      | split; [assumption | intros ->; discriminate]]|]).
  all: constructor.
Qed.

(** The calls of the remediation branch of [run]. *)
Definition isRemediationCall (c : Call) : bool :=
  match c with
  | Remediate _ | SaveIdxResponse _ | IsFinished _ | ExchangeCodeForTokens _ _ _ => true
  | _ => false
  end.

(** X22.  Without [remediators] and without [actions], [run] only starts
    or resumes the transaction: it makes no remediation, monitor or token
    call, and once introspection has resolved the transaction is [PENDING]
    and carries the features and the steps computed from the response.
    With either of them, the transaction carries none of [meta],
    [enabledFeatures] and [availableSteps], and [remediate] is called once
    introspection has resolved. *)
Theorem run_start_or_remediate (options : RunOptions) :
  let tx := fst (run authClient options) in
  let calls := snd (run authClient options) in
  (remediators options = None /\ options_actions options = None ->
     (forall c, In c calls -> isRemediationCall c = false)
     /\ tx_nextStep tx = None /\ tx_messages tx = None /\ tx_tokens tx = None
     /\ (forall response, tx_idxResponse tx = Some response ->
           tx_status tx = PENDING
           /\ tx_enabledFeatures tx = Some (getEnabledFeatures response)
           /\ tx_availableSteps tx
              = Some (getAvailableSteps authClient (neededToProceed response))))
  /\ (remediators options <> None \/ options_actions options <> None ->
      tx_meta tx = None /\ tx_enabledFeatures tx = None /\ tx_availableSteps tx = None
      /\ (forall response, tx_idxResponse tx = Some response ->
            exists r, In (Remediate r) calls)).
Proof.
  split; [|intros H; exact (run_with_remediators options H)].
  run_cases.
  all: try match goal with
       | H : negb (Js.truthy_object (remediators ?o)) && _ = _ |- _ =>
           destruct (remediators o), (options_actions o);
           cbn in H; try discriminate H
       end.
  all: intros [? ?]; try congruence.
  all: split; [intros c Hc; split_in; subst; reflexivity|];
       do 3 (split; [reflexivity|]); intros response [= <-]; repeat split.
Qed.

(** The arguments of the calls that clear the transaction at the end of
    [run]. *)
Definition final_clears (calls : list Call) : list bool :=
  flat_map (fun c => match c with Clear (Some b) => [b] | _ => [] end) calls.

(** X23.  [run] leaves a [PENDING] transaction in storage; under every
    other status its last call clears the transaction, once, and shared
    storage is kept exactly when [remediate] had resolved with [terminal]
    set, whatever the status ended up as. *)
Theorem run_clears_when_over (options : RunOptions) :
  let tx := fst (run authClient options) in
  let calls := snd (run authClient options) in
  (tx_status tx = PENDING -> final_clears calls = [])
  /\ (tx_status tx <> PENDING ->
      exists b,
        final_clears calls = [b]
        /\ last calls (Clear None) = Clear (Some b)
        /\ (b = false <->
            exists resp, In (Remediate (inr resp)) calls /\ terminal resp = true)).
Proof.
  run_cases.
  all: split; [intros; first [discriminate | reflexivity]
              | intros Hne; try (exfalso; apply Hne; reflexivity)].
  all: eexists; split; [reflexivity|]; split; [reflexivity|].
  all: split; [intros; first [discriminate | eexists; split; [pick|assumption]]
              | intros (? & H & ?); split_in; try discriminate;
                try (injection H as <-); congruence].
Qed.


(** X25.  [run] resumes the saved transaction when its meta has an
    interaction handle: nothing is cleared up front, [interact] is not
    called, and introspection gets the saved handle.  Otherwise it clears
    the transaction storage, calls [interact] with the options' [sso],
    [state] and [scopes], and introspection gets the handle [interact]
    resolved with. *)
Theorem run_resumes_or_interacts (options : RunOptions) :
  let calls := snd (run authClient options) in
  let saved := getSavedTransactionMeta authClient (state options) in
  let handle := match saved with Some m => interactionHandle m | None => None end in
  (Js.truthy_string handle = true ->
     (forall c, In c calls ->
        match c with Clear None | Interact _ _ _ _ => False | _ => True end)
     /\ exists r,
          In (Introspect (match saved with Some m => meta_sso m | None => None end)
                handle r) calls)
  /\ (Js.truthy_string handle = false ->
      In (Clear None) calls
      /\ exists r,
           In (Interact (sso options) (state options) (scopes options) r) calls
           /\ forall sso' h res, In (Introspect sso' h res) calls ->
                exists ir, r = inr ir /\ h = interact_interactionHandle ir
                           /\ sso' = match interact_meta ir with
                                     | Some m => meta_sso m
                                     | None => None
                                     end).
Proof.
  run_cases.
  all: split; intros Hh; try discriminate Hh.
  all: try match goal with
       | E : negb (Js.truthy_string _) = _ |- _ => rewrite Hh in E; try discriminate E
       end.
  all: try (split; [intros c Hc; split_in; subst; exact I | eexists; pick]).
  all: split; [pick|].
  all: eexists; split; [pick|].
  all: intros sso' h res H; split_in; try discriminate.
  all: injection H as <- <- <-; eexists; split; [reflexivity|]; split; [reflexivity|].
  all: match goal with E : interact_meta _ = _ |- _ => rewrite E end; reflexivity.
Qed.

End Outcome.

Section Discovery.

Variable authClient : Collaborators.

Lemma named_exists (name : string) (rs : list IdxRemediation) :
  existsb (fun r => String.eqb (remediation_name r) name) rs = true
  <-> exists r, In r rs /\ remediation_name r = name.
Proof.
  rewrite existsb_exists. split; intros (r & Hin & H); exists r; split; auto.
  - now apply String.eqb_eq.
  - now apply String.eqb_eq.
Qed.

(** X26.  [getEnabledFeatures] reports password recovery exactly when the
    response has the ['currentAuthenticator-recover'] action, registration
    and social login exactly when a remediation of the matching name is
    needed to proceed, and no feature twice.  [getAvailableSteps] gives the
    steps of the remediations that have a registered remediator, in the
    order of the remediations, and skips the others. *)
Theorem features_and_steps (response : IdxResponse) :
  (In PASSWORD_RECOVERY (getEnabledFeatures response)
     <-> In "currentAuthenticator-recover" (actions response))
  /\ (In REGISTRATION (getEnabledFeatures response)
      <-> exists r, In r (neededToProceed response)
                    /\ remediation_name r = "select-enroll-profile")
  /\ (In SOCIAL_IDP (getEnabledFeatures response)
      <-> exists r, In r (neededToProceed response)
                    /\ remediation_name r = "redirect-idp")
  /\ NoDup (getEnabledFeatures response)
  /\ (forall rs step,
        In step (getAvailableSteps authClient rs)
        <-> exists r T, In r rs
                        /\ remediatorMap authClient (remediation_name r) = Some T
                        /\ step = T r)
  /\ (forall rs1 rs2,
        getAvailableSteps authClient (rs1 ++ rs2)
        = getAvailableSteps authClient rs1 ++ getAvailableSteps authClient rs2)
  /\ (forall rs r,
        remediatorMap authClient (remediation_name r) = None ->
        getAvailableSteps authClient (r :: rs) = getAvailableSteps authClient rs).
Proof.
  assert (Hact : existsb (String.eqb "currentAuthenticator-recover") (actions response) = true
                 <-> In "currentAuthenticator-recover" (actions response)).
  { rewrite existsb_exists. split.
    - intros (x & Hin & E). apply String.eqb_eq in E. now subst.
    - intros Hin. eexists. split; [exact Hin | apply String.eqb_refl]. }
  pose proof (named_exists "select-enroll-profile" (neededToProceed response)) as Hreg.
  pose proof (named_exists "redirect-idp" (neededToProceed response)) as Hidp.
  unfold getEnabledFeatures.
  destruct (existsb (String.eqb "currentAuthenticator-recover") (actions response));
    destruct (existsb _ (neededToProceed response));
    destruct (existsb _ (neededToProceed response)); cbn.
  all: split; [rewrite <- Hact; intuition congruence|].
  all: split; [rewrite <- Hreg; intuition congruence|].
  all: split; [rewrite <- Hidp; intuition congruence|].
  all: split; [repeat constructor; cbn; intuition congruence|].
  all: split; [|split].
  all: try (intros rs1 rs2; unfold getAvailableSteps; apply flat_map_app).
  all: try (intros rs r E; unfold getAvailableSteps; cbn; now rewrite E).
  all: intros rs step; unfold getAvailableSteps; rewrite in_flat_map; split.
  all: try (intros (r & Hin & H);
            destruct (remediatorMap authClient (remediation_name r)) as [T|] eqn:E;
            [destruct H as [<-|[]]; eauto | destruct H]).
  all: intros (r & T & Hin & E & ->); exists r; rewrite E; split; [exact Hin | now left].
Qed.

End Discovery.



End IdxRunProps.

(** ** Resuming a transaction *)

Module ProceedProps.

Import Idx IdxProps IdxRunProps Proceed.

Section Resume.

Variable authClient : Collaborators.
Variable flows : Flows.

(** The flows that sign a user up or recover a password. *)
Definition separate_session (flow : string) : bool :=
  String.eqb flow "register" || String.eqb flow "signup"
  || String.eqb flow "enrollProfile"
  || String.eqb flow "recoverPassword" || String.eqb flow "resetPassword".

(** X27.  [proceed] resolves exactly when [canProceed] says so for the
    same [state]; otherwise it rejects with the usage error, having called
    nothing but the loader of the saved meta. *)
Theorem proceed_needs_saved_meta (options : RunOptions) :
  (canProceed authClient (state options) = true <->
     exists tx, fst (proceed authClient flows options) = inr tx)
  /\ (canProceed authClient (state options) = false ->
      proceed authClient flows options
      = (inl (AuthSdkError authClient unable_to_proceed),
         [GetSavedTransactionMeta (state options)])).
Proof.
  unfold canProceed, proceed.
  destruct (getSavedTransactionMeta authClient (state options)) as [m|]; cbn.
  - destruct (run authClient _) as [tx calls]. cbn. split; [|discriminate].
    split; eauto.
  - split; [|reflexivity]. split; [discriminate | intros (tx & [=])].
Qed.

(** X28.  With a saved meta, [proceed] runs the flow that was saved,
    ['proceed'] when none was: that is the flow it sets, the options' own
    [flow], [remediators], [flowMonitor], [actions] and [sso] play no part,
    a new interaction is started without single sign-on exactly for the
    sign-up and recovery flows, and the transaction is that of a
    remediation, without [meta], [enabledFeatures] or [availableSteps]. *)
Theorem proceed_runs_saved_flow (options : RunOptions) (m : TransactionMeta) :
  getSavedTransactionMeta authClient (state options) = Some m ->
  let saved := match meta_flow flows m with Some f => f | None => "proceed" end in
  exists tx calls,
    proceed authClient flows options
    = (inr tx, GetSavedTransactionMeta (state options) :: calls)
    /\ (forall options',
          state options' = state options -> scopes options' = scopes options ->
          proceed authClient flows options' = proceed authClient flows options)
    /\ (forall f, In (SetFlow f) calls -> f = saved)
    /\ (forall s st sc r, In (Interact s st sc r) calls ->
          s = Some (negb (separate_session saved)))
    /\ tx_meta tx = None /\ tx_enabledFeatures tx = None /\ tx_availableSteps tx = None.
Proof.
  intros Hm saved.
  set (merged := merge options (getFlowSpecification flows (meta_flow flows m))).
  exists (fst (run authClient merged)), (snd (run authClient merged)).
  assert (Hflow : flow merged = Some saved).
  { subst merged saved. unfold merge, getFlowSpecification. cbn.
    destruct (meta_flow flows m) as [f|]; cbn;
      repeat match goal with |- context [if ?c then _ else _] => destruct c end;
      reflexivity. }
  assert (Hsso : sso merged = Some (negb (separate_session saved))).
  { subst merged saved. unfold merge, getFlowSpecification, separate_session. cbn.
    destruct (meta_flow flows m) as [f|]; cbn.
    - destruct (String.eqb f "register"), (String.eqb f "signup"),
        (String.eqb f "enrollProfile"), (String.eqb f "recoverPassword"),
        (String.eqb f "resetPassword"); reflexivity.
    - reflexivity. }
  assert (Hrem : remediators merged <> None) by (subst merged; cbn; discriminate).
  pose proof (run_call_arguments authClient merged) as Hargs.
  rewrite Forall_forall in Hargs.
  split; [|split; [|split; [|split]]].
  - unfold proceed. rewrite Hm. fold merged. destruct (run authClient merged). reflexivity.
  - intros options' Hst Hsc. unfold proceed, merge. rewrite Hst, Hsc. reflexivity.
  - intros f Hin. apply Hargs in Hin. unfold from_options in Hin.
    destruct Hin as [Hin _]. rewrite Hflow in Hin. congruence.
  - intros s st sc r Hin. apply Hargs in Hin. unfold from_options in Hin.
    destruct Hin as [Hin _]. rewrite Hsso in Hin. exact Hin.
  - destruct (run_with_remediators authClient merged (or_introl Hrem)) as (A & B & C & _).
    auto.
Qed.

End Resume.

Definition sample_flows : Flows :=
  mkFlows ["select-enroll-profile"; "enroll-profile"] (mkFlowMonitor (inr true))
          ["identify-recovery"; "reset-authenticator"] (mkFlowMonitor (inr true))
          ["identify"; "challenge-authenticator"] (mkFlowMonitor (inr true))
          (fun _ => Some "register").

Lemma proceed_runs_saved_flow_witness :
  exists tx calls,
    proceed (sample_client code_only) sample_flows (sample_options false)
    = (inr tx, GetSavedTransactionMeta None :: calls)
    /\ tx_meta tx = None
    /\ (forall f, In (SetFlow f) calls -> f = "register").
Proof.
  destruct (proceed_runs_saved_flow (sample_client code_only) sample_flows
              (sample_options false) sample_meta eq_refl)
    as (tx & calls & Hrun & _ & Hflow & _ & Hmeta & _).
  exists tx, calls. split; [exact Hrun|]. split; [exact Hmeta | exact Hflow].
Defined.

End ProceedProps.

(** ** The verify-authenticator step, further *)

Module VerifyAuthenticatorAfterProps.

Import VerifyAuthenticator VerifyAuthenticatorAfter VerifyAuthenticatorProps.

(** X29.  [canRemediate] holds exactly when the passcode [mapCredentials]
    sends is a non-empty string.  For an authenticator other than a
    password that passcode is the verification code when one is supplied,
    else the otp; a password given to such a step is not sent. *)
Theorem passcode_sent (this : Remediator) :
  (canRemediate this = true <-> supplied (mapCredentials this))
  /\ (type (getAuthenticator this) <> "password" ->
      (supplied (verificationCode (values this)) ->
         mapCredentials this = verificationCode (values this))
      /\ (~ supplied (verificationCode (values this)) ->
         mapCredentials this = otp (values this)))
  /\ (type (getAuthenticator this) = "password" ->
      mapCredentials this = password (values this)).
Proof.
  unfold canRemediate, mapCredentials. split; [|split].
  - rewrite <- truthy_string_supplied.
    destruct (String.eqb _ "password"); reflexivity.
  - intros Hne. destruct (String.eqb_spec (type (getAuthenticator this)) "password");
      [contradiction|].
    rewrite <- truthy_string_supplied. unfold Js.or_string.
    destruct (Js.truthy_string (verificationCode (values this))); split; intros H;
      try reflexivity; try discriminate. exfalso. now apply H.
  - intros ->. reflexivity.
Qed.

(** X30.  The values kept after a step has been taken no longer let the
    same authenticator's step proceed: the credential of its kind is
    dropped, whatever the inherited values hold, and the values of the
    other kind are kept. *)
Theorem values_after_proceed_spent (this : Remediator)
    (superValues : VerifyAuthenticatorValues) :
  let kept := getValuesAfterProceed this superValues in
  canRemediate (mkRemediator (getAuthenticator this) kept) = false
  /\ mapCredentials (mkRemediator (getAuthenticator this) kept) = None
  /\ (type (getAuthenticator this) = "password" ->
      verificationCode kept = verificationCode superValues /\ otp kept = otp superValues)
  /\ (type (getAuthenticator this) <> "password" ->
      password kept = password superValues).
Proof.
  unfold getValuesAfterProceed, canRemediate, mapCredentials. cbn.
  destruct (String.eqb_spec (type (getAuthenticator this)) "password") as [E|E]; cbn.
  - rewrite E. cbn. split; [reflexivity|]. split; [reflexivity|].
    split; [intros _; split; reflexivity | intros H; contradiction].
  - destruct (String.eqb_spec (type (getAuthenticator this)) "password");
      [contradiction|].
    split; [reflexivity|]. split; [reflexivity|].
    split; [intros H; contradiction | intros _; reflexivity].
Qed.

End VerifyAuthenticatorAfterProps.
